(** * Titles and data models of the widget toolkit

    A shallow embedding of [widgets/src/title.ts] (the [Title] class, an
    observable record) and of [datagrid/src/datamodel.ts] (the change
    events of a data grid model and the [DataModel] base class), with the
    properties their specification states about them.

    Objects are records and methods are functions from the object before
    the call to the object after it.  A signal keeps the sequence of its
    emissions, so that what a method notified can be read from the object
    it returns.  Objects with string keys ([_dataset], [options.dataset],
    the argument of [updateData]) are finite maps. *)

From Stdlib Require Import PrimFloat SpecFloat FloatOps FloatAxioms ZArith.
From stdpp Require Import gmap strings list fin_maps.

(** * JavaScript values *)

(** A JavaScript [number] is an IEEE 754 double. *)
Abbreviation number := float.

(** The strict equality operator, at the three types the sources compare. *)
Class StrictEq (A : Type) := strict_eq : A → A → bool.
Infix "===" := strict_eq (at level 70, no associativity).

#[export] Instance string_strict_eq : StrictEq string := String.eqb.
#[export] Instance boolean_strict_eq : StrictEq bool := Bool.eqb.
(** On numbers [===] is the IEEE comparison: [NaN] is not equal to itself
    and the two zeros are equal. *)
#[export] Instance number_strict_eq : StrictEq number := PrimFloat.eqb.

(** The truth value of a string in a condition: every string but the empty
    one is truthy. *)
Definition truthy (s : string) : bool :=
  match s with
  | EmptyString => false
  | String _ _ => true
  end.

(** [x || ''] for a property read [x] of a string-valued object: the read
    gives [undefined] (here [None]) for a key the object does not have. *)
Definition or_empty (x : option string) : string :=
  match x with
  | Some s => if truthy s then s else ""
  | None => ""
  end.

(** [for (let key in o)] over an object whose properties are strings: the
    body runs once for each key of [o], here paired with [o[key]]. *)
Definition for_in {A : Type} (o : gmap string string)
    (body : A → string * string → A) (init : A) : A :=
  foldl body init (map_to_list o).

(** Objects are passed by reference; a reference stands for the object's
    identity. *)
Definition ObjRef := positive.

(** * Signals *)

Module Signal.

(** Modelled from the spec: the [Signal] class of [@phosphor/signaling],
    which both sources import and which is not part of them.  The
    specification takes it as a given capability: synchronous, ordered
    delivery of each emission, once, to the attached observers, who
    receive the sender and the arguments.  A signal is created for a
    sender and its state is the sequence of the emissions made so far. *)
Record t (T U : Type) := mk {
  sender : T;
  emitted : list (T * U)
}.
Arguments mk {T U}.
Arguments sender {T U}.
Arguments emitted {T U}.

(** [new Signal(sender)] *)
Definition new {T U : Type} (sender : T) : t T U :=
  {| sender := sender; emitted := [] |}.

(** [signal.emit(args)] *)
Definition emit {T U : Type} (args : U) (signal : t T U) : t T U :=
  {| sender := sender signal;
     emitted := emitted signal ++ [(sender signal, args)] |}.

End Signal.

(** * The title of an object: [widgets/src/title.ts] *)

Module Title.

(** [Title.IOptions<T>]: an absent optional property is [None]. *)
Module IOptions.
Record t (T : Type) := mk {
  owner : T;
  label : option string;
  mnemonic : option number;
  icon : option string;
  caption : option string;
  className : option string;
  closable : option bool;
  dataset : option (gmap string string)
}.
Arguments mk {T}.
Arguments owner {T}.
Arguments label {T}.
Arguments mnemonic {T}.
Arguments icon {T}.
Arguments caption {T}.
Arguments className {T}.
Arguments closable {T}.
Arguments dataset {T}.
End IOptions.

(** The fields of a [Title<T>] object.  The sender of [_changed] is the
    title itself, held by reference. *)
Record t (T : Type) := mk {
  owner : T;
  _icon : string;
  _label : string;
  _caption : string;
  _mnemonic : number;
  _className : string;
  _closable : bool;
  _changed : Signal.t ObjRef unit;
  _dataset : gmap string string
}.
Arguments mk {T}.
Arguments owner {T}.
Arguments _icon {T}.
Arguments _label {T}.
Arguments _caption {T}.
Arguments _mnemonic {T}.
Arguments _className {T}.
Arguments _closable {T}.
Arguments _changed {T}.
Arguments _dataset {T}.

Section Methods.
Context {T : Type}.
Implicit Types this : t T.

(** ** Assignments to one field: [this._f = value] *)

Definition assign_icon (value : string) this : t T :=
  mk (owner this) value (_label this) (_caption this) (_mnemonic this)
     (_className this) (_closable this) (_changed this) (_dataset this).

Definition assign_label (value : string) this : t T :=
  mk (owner this) (_icon this) value (_caption this) (_mnemonic this)
     (_className this) (_closable this) (_changed this) (_dataset this).

Definition assign_caption (value : string) this : t T :=
  mk (owner this) (_icon this) (_label this) value (_mnemonic this)
     (_className this) (_closable this) (_changed this) (_dataset this).

Definition assign_mnemonic (value : number) this : t T :=
  mk (owner this) (_icon this) (_label this) (_caption this) value
     (_className this) (_closable this) (_changed this) (_dataset this).

Definition assign_className (value : string) this : t T :=
  mk (owner this) (_icon this) (_label this) (_caption this) (_mnemonic this)
     value (_closable this) (_changed this) (_dataset this).

Definition assign_closable (value : bool) this : t T :=
  mk (owner this) (_icon this) (_label this) (_caption this) (_mnemonic this)
     (_className this) value (_changed this) (_dataset this).

Definition assign_dataset (value : gmap string string) this : t T :=
  mk (owner this) (_icon this) (_label this) (_caption this) (_mnemonic this)
     (_className this) (_closable this) (_changed this) value.

(** [this._dataset[key] = value] and [delete this._dataset[key]] *)
Definition dataset_put (key value : string) this : t T :=
  assign_dataset (<[key := value]> (_dataset this)) this.

Definition dataset_delete (key : string) this : t T :=
  assign_dataset (delete key (_dataset this)) this.

(** [if (value) { this._dataset[key] = value; } else { delete
    this._dataset[key]; }], as [setData] and the loop of [updateData]
    have it. *)
Definition dataset_write (key value : string) this : t T :=
  if truthy value then dataset_put key value this
  else dataset_delete key this.

(** [this._changed.emit(undefined)] *)
Definition emit_changed this : t T :=
  mk (owner this) (_icon this) (_label this) (_caption this) (_mnemonic this)
     (_className this) (_closable this) (Signal.emit tt (_changed this))
     (_dataset this).

(** ** The constructor *)

(** The field initialisers, which run before the constructor's body, and
    [this.owner = options.owner].  [self] is the reference of the object
    under construction. *)
Definition init (self : ObjRef) (owner : T) : t T :=
  {| owner := owner;
     _icon := "";
     _label := "";
     _caption := "";
     _mnemonic := (-1)%float;
     _className := "";
     _closable := false;
     _changed := Signal.new self;
     _dataset := ∅ |}.

(** [if (option !== undefined) { this._f = option; }] *)
Definition if_defined {A : Type} (option : option A)
    (assign : A → t T → t T) this : t T :=
  match option with
  | Some value => assign value this
  | None => this
  end.

(** The body of the loop over [options.dataset]. *)
Definition new_dataset_body this (entry : string * string) : t T :=
  if truthy entry.2 then dataset_put entry.1 entry.2 this else this.

Definition new (self : ObjRef) (options : IOptions.t T) : t T :=
  let this := init self (IOptions.owner options) in
  let this := if_defined (IOptions.label options) assign_label this in
  let this := if_defined (IOptions.mnemonic options) assign_mnemonic this in
  let this := if_defined (IOptions.icon options) assign_icon this in
  let this := if_defined (IOptions.caption options) assign_caption this in
  let this := if_defined (IOptions.className options) assign_className this in
  let this := if_defined (IOptions.closable options) assign_closable this in
  if_defined (IOptions.dataset options)
    (λ dataset this, for_in dataset new_dataset_body this) this.

(** ** Getters *)

Definition changed this : Signal.t ObjRef unit := _changed this.
Definition label this : string := _label this.
Definition mnemonic this : number := _mnemonic this.
Definition icon this : string := _icon this.
Definition caption this : string := _caption this.
Definition className this : string := _className this.
Definition closable this : bool := _closable this.

(** ** Setters *)

Definition set_label (value : string) this : t T :=
  if _label this === value then this
  else emit_changed (assign_label value this).

Definition set_mnemonic (value : number) this : t T :=
  if _mnemonic this === value then this
  else emit_changed (assign_mnemonic value this).

Definition set_icon (value : string) this : t T :=
  if _icon this === value then this
  else emit_changed (assign_icon value this).

Definition set_caption (value : string) this : t T :=
  if _caption this === value then this
  else emit_changed (assign_caption value this).

Definition set_className (value : string) this : t T :=
  if _className this === value then this
  else emit_changed (assign_className value this).

Definition set_closable (value : bool) this : t T :=
  if _closable this === value then this
  else emit_changed (assign_closable value this).

(** ** The dataset *)

Definition getData (key : string) this : string :=
  or_empty (_dataset this !! key).

Definition setData (key value : string) this : t T :=
  if value === or_empty (_dataset this !! key) then this
  else emit_changed (dataset_write key value this).

(** The body of the loop of [updateData]; the local variable [changed] is
    threaded next to the object. *)
Definition updateData_body (state : t T * bool) (entry : string * string)
    : t T * bool :=
  let (key, value) := entry in
  if value === or_empty (_dataset state.1 !! key) then state
  else (dataset_write key value state.1, true).

Definition updateData (values : gmap string string) this : t T :=
  let state := for_in values updateData_body (this, false) in
  if state.2 then emit_changed state.1 else state.1.

(** ** Operations as data

    The vocabulary of the statements below: the six field setters as
    values, every mutating operation as a value, and runs of operations
    from a constructed title. *)

Inductive Field :=
  Label | Mnemonic | Icon | Caption | ClassName | Closable | Dataset.

Inductive Assignment :=
  | SetLabel (value : string)
  | SetMnemonic (value : number)
  | SetIcon (value : string)
  | SetCaption (value : string)
  | SetClassName (value : string)
  | SetClosable (value : bool).

Definition field_of (a : Assignment) : Field :=
  match a with
  | SetLabel _ => Label
  | SetMnemonic _ => Mnemonic
  | SetIcon _ => Icon
  | SetCaption _ => Caption
  | SetClassName _ => ClassName
  | SetClosable _ => Closable
  end.

(** [this.f = value], through the setter. *)
Definition set (a : Assignment) this : t T :=
  match a with
  | SetLabel value => set_label value this
  | SetMnemonic value => set_mnemonic value this
  | SetIcon value => set_icon value this
  | SetCaption value => set_caption value this
  | SetClassName value => set_className value this
  | SetClosable value => set_closable value this
  end.

(** The assigned value is equal ([===]) to what the getter returns. *)
Definition is_current (a : Assignment) this : bool :=
  match a with
  | SetLabel value => label this === value
  | SetMnemonic value => mnemonic this === value
  | SetIcon value => icon this === value
  | SetCaption value => caption this === value
  | SetClassName value => className this === value
  | SetClosable value => closable this === value
  end.

(** The getter returns the assigned value. *)
Definition reads_back (a : Assignment) this : Prop :=
  match a with
  | SetLabel value => label this = value
  | SetMnemonic value => mnemonic this = value
  | SetIcon value => icon this = value
  | SetCaption value => caption this = value
  | SetClassName value => className this = value
  | SetClosable value => closable this = value
  end.

(** Two titles agree on a field. *)
Definition same (f : Field) (this this' : t T) : Prop :=
  match f with
  | Label => _label this = _label this'
  | Mnemonic => _mnemonic this = _mnemonic this'
  | Icon => _icon this = _icon this'
  | Caption => _caption this = _caption this'
  | ClassName => _className this = _className this'
  | Closable => _closable this = _closable this'
  | Dataset => _dataset this = _dataset this'
  end.

Inductive Op :=
  | Assign (a : Assignment)
  | SetData (key value : string)
  | UpdateData (values : gmap string string).

Definition apply (op : Op) this : t T :=
  match op with
  | Assign a => set a this
  | SetData key value => setData key value this
  | UpdateData values => updateData values this
  end.

Definition run (ops : list Op) this : t T :=
  foldl (λ this op, apply op this) this ops.

(** The field an operation addresses, and for the two dataset operations
    the keys it addresses. *)
Definition addressed (op : Op) : Field :=
  match op with
  | Assign a => field_of a
  | SetData _ _ | UpdateData _ => Dataset
  end.

Definition addresses_key (op : Op) (key : string) : bool :=
  match op with
  | Assign _ => false
  | SetData k _ => bool_decide (k = key)
  | UpdateData values => bool_decide (is_Some (values !! key))
  end.

(** The emissions of [changed] so far, and how many there were. *)
Definition notified this : list (ObjRef * unit) :=
  Signal.emitted (changed this).

Definition notifications this : nat := length (notified this).

(** What the dataset holds at a key after [value] was written there, by
    [setData] or by one round of [updateData], over the entry [old]. *)
Definition written (value : string) (old : option string) : option string :=
  if value === or_empty old then old
  else if truthy value then Some value else None.

(** An entry of [values] differs from what the title reads at its key. *)
Definition differs this (entry : string * string) : Prop :=
  entry.2 ≠ getData entry.1 this.

#[export] Instance differs_dec this entry : Decision (differs this entry).
Proof. unfold differs. apply _. Defined.

(** No entry of the dataset holds the empty string. *)
Definition dataset_wf this : Prop :=
  map_Forall (λ _ value, value ≠ "") (_dataset this).

End Methods.
End Title.

(** * The data model of a data grid: [datagrid/src/datamodel.ts] *)

Module IDataModel.

(** [ICellData]: [value] is of type [any]. *)
Record ICellData (any : Type) := mkCellData {
  value : any;
  cell_type : string
}.

(** The string literal types of the [type] properties. *)
Inductive SectionsInsertedType := rows_inserted | cols_inserted.
Inductive SectionsRemovedType := rows_removed | cols_removed.
Inductive SectionsMovedType := rows_moved | cols_moved.
Inductive CellsChangedType := cells_changed.
Inductive ModelChangedType := model_changed.

Record ISectionsInsertedArgs := mkSectionsInserted {
  inserted_type : SectionsInsertedType;
  inserted_index : number;
  inserted_span : number
}.

Record ISectionsRemovedArgs := mkSectionsRemoved {
  removed_type : SectionsRemovedType;
  removed_index : number;
  removed_span : number
}.

Record ISectionsMovedArgs := mkSectionsMoved {
  moved_type : SectionsMovedType;
  fromIndex : number;
  toIndex : number;
  moved_span : number
}.

Record ICellsChangedArgs := mkCellsChanged {
  cells_type : CellsChangedType;
  rowIndex : number;
  colIndex : number;
  rowSpan : number;
  colSpan : number
}.

Record IModelChangedArgs := mkModelChanged {
  model_type : ModelChangedType
}.

(** The union type [ChangedArgs], by the properties its five interfaces
    declare: what a consumer reads from an args object through the type.
    What else an object may hold is the matter of [ArgsObject] below. *)
Inductive ChangedArgs :=
  | SectionsInserted (args : ISectionsInsertedArgs)
  | SectionsRemoved (args : ISectionsRemovedArgs)
  | SectionsMoved (args : ISectionsMovedArgs)
  | CellsChanged (args : ICellsChangedArgs)
  | ModelChanged (args : IModelChangedArgs).

(** The value of the [type] property of an args object. *)
Definition type (args : ChangedArgs) : string :=
  match args with
  | SectionsInserted a =>
      match inserted_type a with
      | rows_inserted => "rows-inserted"
      | cols_inserted => "cols-inserted"
      end
  | SectionsRemoved a =>
      match removed_type a with
      | rows_removed => "rows-removed"
      | cols_removed => "cols-removed"
      end
  | SectionsMoved a =>
      match moved_type a with
      | rows_moved => "rows-moved"
      | cols_moved => "cols-moved"
      end
  | CellsChanged a =>
      match cells_type a with cells_changed => "cells-changed" end
  | ModelChanged a =>
      match model_type a with model_changed => "model-changed" end
  end.

(** The five interfaces of the union. *)
Inductive Variant :=
  | sections_inserted
  | sections_removed
  | sections_moved
  | cells_changed_variant
  | model_changed_variant.

Definition variant (args : ChangedArgs) : Variant :=
  match args with
  | SectionsInserted _ => sections_inserted
  | SectionsRemoved _ => sections_removed
  | SectionsMoved _ => sections_moved
  | CellsChanged _ => cells_changed_variant
  | ModelChanged _ => model_changed_variant
  end.

(** The variant a consumer of the signal takes an args object for, from
    its [type] tag alone. *)
Definition variant_of_type (tag : string) : option Variant :=
  if decide (tag = "rows-inserted" ∨ tag = "cols-inserted") then
    Some sections_inserted
  else if decide (tag = "rows-removed" ∨ tag = "cols-removed") then
    Some sections_removed
  else if decide (tag = "rows-moved" ∨ tag = "cols-moved") then
    Some sections_moved
  else if decide (tag = "cells-changed") then Some cells_changed_variant
  else if decide (tag = "model-changed") then Some model_changed_variant
  else None.


End IDataModel.

Module DataModel.
Import IDataModel.

(** A [DataModel] object: the private signal of the base class, next to
    whatever state the concrete subclass keeps ([rowCount], [colCount] and
    [data] are abstract and read that state). *)
Record t (S : Type) := mk {
  _changed : Signal.t ObjRef ChangedArgs;
  fields : S
}.
Arguments mk {S}.
Arguments _changed {S}.
Arguments fields {S}.

Section Methods.
Context {S : Type}.
Implicit Types this : t S.

(** Construction: the field initialiser [_changed = new Signal(this)];
    [self] is the reference of the object under construction. *)
Definition new (self : ObjRef) (fields : S) : t S :=
  {| _changed := Signal.new self; fields := fields |}.

Definition changed this : Signal.t ObjRef ChangedArgs := _changed this.

Definition emitChanged (args : ChangedArgs) this : t S :=
  {| _changed := Signal.emit args (_changed this); fields := fields this |}.

(** ** The life of a model

    What happens to a model object after its construction: the subclass
    calls [emitChanged], or it changes its own state.  The signal is a
    private field of the base class, out of the subclass's reach. *)
Inductive Action :=
  | EmitChanged (args : ChangedArgs)
  | Mutate (f : S → S).

Definition step this (a : Action) : t S :=
  match a with
  | EmitChanged args => emitChanged args this
  | Mutate f => {| _changed := _changed this; fields := f (fields this) |}
  end.

Definition run (actions : list Action) this : t S := foldl step this actions.

(** The args of the calls of [emitChanged] among some actions, in order. *)
Definition emit_calls (actions : list Action) : list ChangedArgs :=
  omap (λ a, match a with EmitChanged args => Some args | Mutate _ => None end)
       actions.

(** The events the observers of [changed] were sent so far. *)
Definition delivered this : list ChangedArgs :=
  (Signal.emitted (changed this)).*2.

End Methods.
End DataModel.

(** * Args objects with all their properties *)

Module ArgsObject.
Import IDataModel.

Section Objects.
Context {any : Type}.

(** The value of a property: a string, a number, or a value of any other
    type. *)
Inductive Value :=
  | Str (s : string)
  | Num (n : number)
  | Other (v : any).

(** An object is the finite map of its properties. *)
Local Abbreviation Object := (gmap string Value).

(** [o.type] when it is a string, [o[key]] when it is a number. *)
Definition type_at (o : Object) : option string :=
  match o !! "type" with
  | Some (Str s) => Some s
  | _ => None
  end.

Definition number_at (key : string) (o : Object) : option number :=
  match o !! key with
  | Some (Num n) => Some n
  | _ => None
  end.

(** The literals an interface declares for [type], and the properties of
    type [number] it declares. *)
Definition tags (v : Variant) : list string :=
  match v with
  | sections_inserted => ["rows-inserted"; "cols-inserted"]
  | sections_removed => ["rows-removed"; "cols-removed"]
  | sections_moved => ["rows-moved"; "cols-moved"]
  | cells_changed_variant => ["cells-changed"]
  | model_changed_variant => ["model-changed"]
  end.

Definition declared (v : Variant) : list string :=
  match v with
  | sections_inserted | sections_removed => ["index"; "span"]
  | sections_moved => ["fromIndex"; "toIndex"; "span"]
  | cells_changed_variant => ["rowIndex"; "colIndex"; "rowSpan"; "colSpan"]
  | model_changed_variant => []
  end.

(** An object is of an interface when it has the declared properties with
    the declared types.  An interface says nothing of other properties:
    an object that has more is of the interface all the same. *)
Definition conforms_to (v : Variant) (o : Object) : bool :=
  match type_at o with
  | Some s => bool_decide (s ∈ tags v)
  | None => false
  end
  && forallb (λ key, bool_decide (is_Some (number_at key o))) (declared v).

(** An object is of the union when it is of one of the five interfaces. *)
Definition is_ChangedArgs (o : Object) : bool :=
  existsb (λ v, conforms_to v o)
    [sections_inserted; sections_removed; sections_moved;
     cells_changed_variant; model_changed_variant].

(** The object has no property but [type] and those its interface
    declares. *)
Definition exact (v : Variant) (o : Object) : bool :=
  bool_decide (dom o = list_to_set ("type" :: declared v)).

(** The object of an args value: its declared properties and no other. *)
Definition to_object (args : ChangedArgs) : Object :=
  <["type" := Str (type args)]>
    match args with
    | SectionsInserted a =>
        <["index" := Num (inserted_index a)]>
          (<["span" := Num (inserted_span a)]> ∅)
    | SectionsRemoved a =>
        <["index" := Num (removed_index a)]>
          (<["span" := Num (removed_span a)]> ∅)
    | SectionsMoved a =>
        <["fromIndex" := Num (fromIndex a)]>
          (<["toIndex" := Num (toIndex a)]>
             (<["span" := Num (moved_span a)]> ∅))
    | CellsChanged a =>
        <["rowIndex" := Num (rowIndex a)]>
          (<["colIndex" := Num (colIndex a)]>
             (<["rowSpan" := Num (rowSpan a)]>
                (<["colSpan" := Num (colSpan a)]> ∅)))
    | ModelChanged _ => ∅
    end.

(** What a consumer reads from an object through the union type: the
    switch on [type] and then the declared properties. *)
Definition of_object (o : Object) : option ChangedArgs :=
  tag ← type_at o;
  if decide (tag = "rows-inserted") then
    index ← number_at "index" o; span ← number_at "span" o;
    Some (SectionsInserted (mkSectionsInserted rows_inserted index span))
  else if decide (tag = "cols-inserted") then
    index ← number_at "index" o; span ← number_at "span" o;
    Some (SectionsInserted (mkSectionsInserted cols_inserted index span))
  else if decide (tag = "rows-removed") then
    index ← number_at "index" o; span ← number_at "span" o;
    Some (SectionsRemoved (mkSectionsRemoved rows_removed index span))
  else if decide (tag = "cols-removed") then
    index ← number_at "index" o; span ← number_at "span" o;
    Some (SectionsRemoved (mkSectionsRemoved cols_removed index span))
  else if decide (tag = "rows-moved") then
    from ← number_at "fromIndex" o; to ← number_at "toIndex" o;
    span ← number_at "span" o;
    Some (SectionsMoved (mkSectionsMoved rows_moved from to span))
  else if decide (tag = "cols-moved") then
    from ← number_at "fromIndex" o; to ← number_at "toIndex" o;
    span ← number_at "span" o;
    Some (SectionsMoved (mkSectionsMoved cols_moved from to span))
  else if decide (tag = "cells-changed") then
    row ← number_at "rowIndex" o; col ← number_at "colIndex" o;
    rows ← number_at "rowSpan" o; cols ← number_at "colSpan" o;
    Some (CellsChanged (mkCellsChanged cells_changed row col rows cols))
  else if decide (tag = "model-changed") then
    Some (ModelChanged (mkModelChanged model_changed))
  else None.

End Objects.

Arguments Value : clear implicits.

(** A rows-inserted object that also has the properties of a move. *)
Definition inserted_and_moved : gmap string (Value Empty_set) :=
  <["type" := Str "rows-inserted"]>
    (<["index" := Num 2%float]>
       (<["span" := Num 3%float]>
          (<["fromIndex" := Num 0%float]>
             (<["toIndex" := Num 5%float]> ∅)))).

End ArgsObject.

(** * Cell addressing *)

Module CellAddressing.

Inductive CellCategory := Body | ColumnHeader | RowHeader | Corner.

(** Modelled from the spec: the cell addressing rule.  The sources have no
    function that classifies a pair of indices: [IDataModel.data] is
    abstract and only its comment says what negative indices stand for;
    the classification is made by the concrete models and by the grid,
    which are not among the sources. *)
Definition cell_category (row col : Z) : CellCategory :=
  if (row <? 0)%Z then
    if (col <? 0)%Z then Corner else ColumnHeader
  else
    if (col <? 0)%Z then RowHeader else Body.

(** The four cases of the rule as the specification words them. *)
Definition in_category (c : CellCategory) (row col : Z) : Prop :=
  match c with
  | Body => (row >= 0 ∧ col >= 0)%Z
  | ColumnHeader => (row < 0 ∧ col >= 0)%Z
  | RowHeader => (row >= 0 ∧ col < 0)%Z
  | Corner => (row < 0 ∧ col < 0)%Z
  end.

End CellAddressing.

(** * A title to compute with *)

(** A title built with a label and a dataset of two entries, one of them
    empty. *)
Definition tab : Title.t string :=
  Title.new 7%positive
    (Title.IOptions.mk "widget" (Some "Files") None None None None None
       (Some (<["path" := "/tmp"]> (<["mode" := ""]> ∅)))).

(** * Vocabulary of the further properties *)

(** The value of an assignment is [===] to itself. *)
Definition self_equal (a : Title.Assignment) : bool :=
  match a with
  | Title.SetLabel value => value === value
  | Title.SetMnemonic value => value === value
  | Title.SetIcon value => value === value
  | Title.SetCaption value => value === value
  | Title.SetClassName value => value === value
  | Title.SetClosable value => value === value
  end.

(** The value of an assignment to [mnemonic] and the value the field holds
    are both zeros, of whatever signs. *)
Definition both_zeros {T : Type} (a : Title.Assignment) (this : Title.t T)
    : bool :=
  match a with
  | Title.SetMnemonic value => is_zero (Title.mnemonic this) && is_zero value
  | _ => false
  end.

(** The assignment a setter makes when it does assign: [this._f = value]. *)
Definition assign {T : Type} (a : Title.Assignment) (this : Title.t T)
    : Title.t T :=
  match a with
  | Title.SetLabel value => Title.assign_label value this
  | Title.SetMnemonic value => Title.assign_mnemonic value this
  | Title.SetIcon value => Title.assign_icon value this
  | Title.SetCaption value => Title.assign_caption value this
  | Title.SetClassName value => Title.assign_className value this
  | Title.SetClosable value => Title.assign_closable value this
  end.

(** The options without their [dataset] property. *)
Definition without_dataset {T : Type} (options : Title.IOptions.t T)
    : Title.IOptions.t T :=
  Title.IOptions.mk (Title.IOptions.owner options)
    (Title.IOptions.label options) (Title.IOptions.mnemonic options)
    (Title.IOptions.icon options) (Title.IOptions.caption options)
    (Title.IOptions.className options) (Title.IOptions.closable options)
    None.

(** [setData(key, value)] called for each entry in turn. *)
Definition setData_each {T : Type} (entries : list (string * string))
    (this : Title.t T) : Title.t T :=
  foldl (λ this entry, Title.setData entry.1 entry.2 this) this entries.

(** [n] emissions of [changed] in a row. *)
Definition emit_changed_times {T : Type} (n : nat) (this : Title.t T)
    : Title.t T :=
  Nat.iter n Title.emit_changed this.

(** Whether an args object speaks of rows or of columns, for the three
    variants whose tag says so. *)
Inductive Sections := Rows | Cols.

Definition sections (args : IDataModel.ChangedArgs) : option Sections :=
  match args with
  | IDataModel.SectionsInserted a =>
      match IDataModel.inserted_type a with
      | IDataModel.rows_inserted => Some Rows
      | IDataModel.cols_inserted => Some Cols
      end
  | IDataModel.SectionsRemoved a =>
      match IDataModel.removed_type a with
      | IDataModel.rows_removed => Some Rows
      | IDataModel.cols_removed => Some Cols
      end
  | IDataModel.SectionsMoved a =>
      match IDataModel.moved_type a with
      | IDataModel.rows_moved => Some Rows
      | IDataModel.cols_moved => Some Cols
      end
  | IDataModel.CellsChanged _ | IDataModel.ModelChanged _ => None
  end.

(** * Strict equality and truthiness *)

Lemma string_strict_eq_spec (x y : string) : (x === y) = true ↔ x = y.
Proof. apply String.eqb_eq. Qed.

Lemma boolean_strict_eq_spec (x y : bool) : (x === y) = true ↔ x = y.
Proof. apply Bool.eqb_true_iff. Qed.

(** Two numbers are [===] when they are the same number and not [NaN], or
    when both are zeros. *)
Lemma SFeqb_value (sx sy : spec_float) :
  SFeqb sx sy = true
  ↔ (sx = sy ∧ SFeqb sx sx = true)
    ∨ (SFeqb sx (S754_zero false) = true ∧ SFeqb sy (S754_zero false) = true).
Proof.
  unfold SFeqb.
  destruct sx as [s1 | s1 | | s1 m1 e1], sy as [s2 | s2 | | s2 m2 e2];
    try destruct s1; try destruct s2; cbn;
    try (intuition (discriminate || congruence)).
  all: change (Pos.compare_cont Eq m1 m2) with (Pos.compare m1 m2);
    change (Pos.compare_cont Eq m1 m1) with (Pos.compare m1 m1);
    rewrite Z.compare_refl, Pos.compare_refl; cbn;
    destruct (Z.compare_spec e1 e2), (Pos.compare_spec m1 m2); cbn;
    (split;
     [ intros; try discriminate; subst; by left
     | intros [[Heq _] | [? _]];
       [simplify_eq; first [done | lia] | discriminate] ]).
Qed.

Lemma number_strict_eq_spec (x y : number) :
  (x === y) = true
  ↔ (x = y ∧ (y === y) = true) ∨ (is_zero x = true ∧ is_zero y = true).
Proof.
  unfold strict_eq, number_strict_eq, is_zero.
  rewrite !FloatAxioms.eqb_spec.
  change (Prim2SF zero) with (S754_zero false).
  rewrite SFeqb_value.
  assert (x = y ↔ Prim2SF x = Prim2SF y) as Hinj
    by (split; [by intros -> | apply Prim2SF_inj]).
  rewrite Hinj. split; (intros [[Heq ?] | ?]; [left | by right]).
  - by rewrite <- Heq.
  - by rewrite Heq.
Qed.

Lemma truthy_false (s : string) : truthy s = false ↔ s = "".
Proof. by destruct s. Qed.

Lemma or_empty_truthy (s : string) : truthy s = true → or_empty (Some s) = s.
Proof. simpl. by intros ->. Qed.

Lemma or_empty_falsy (x : option string) :
  truthy (or_empty x) = false → or_empty x = "".
Proof. apply truthy_false. Qed.

(** * The setters of a title *)

Section Setters.
Import Title.
Context {T : Type}.
Implicit Types this : Title.t T.

Lemma emit_changed_notified this :
  notified (emit_changed this)
  = notified this ++ [(Signal.sender (changed this), tt)].
Proof. reflexivity. Qed.

(** On the string fields and on the boolean field, [===] is equality of
    the values. *)
Lemma is_current_reads_back (a : Assignment) this :
  field_of a ≠ Mnemonic → is_current a this = true ↔ reads_back a this.
Proof.
  destruct a; simpl; intros Hf;
    first [ apply string_strict_eq_spec | apply boolean_strict_eq_spec | done ].
Qed.

(** A setter that does assign writes its field, emits once and touches
    nothing else. *)
Lemma set_other (a : Assignment) this :
  is_current a this = false →
  reads_back a (set a this)
  ∧ notified (set a this)
    = notified this ++ [(Signal.sender (changed this), tt)]
  ∧ owner (set a this) = owner this
  ∧ _dataset (set a this) = _dataset this
  ∧ ∀ f, f ≠ field_of a → same f this (set a this).
Proof.
  destruct a; cbn [is_current set field_of reads_back];
    unfold label, mnemonic, icon, caption, className, closable;
    unfold set_label, set_mnemonic, set_icon, set_caption, set_className,
      set_closable;
    intros ->; (repeat split; [ intros [] Hf; try done ]).
Qed.

Lemma set_current (a : Assignment) this :
  is_current a this = true → set a this = this.
Proof.
  destruct a; cbn [is_current set];
    unfold label, mnemonic, icon, caption, className, closable;
    unfold set_label, set_mnemonic, set_icon, set_caption, set_className,
      set_closable;
    by intros ->.
Qed.

(** What [===] is on the values of each field: on the strings and on the
    boolean, equality; on the number, equality of numbers that are not
    [NaN], or two zeros. *)
Lemma is_current_value (a : Assignment) this :
  is_current a this = true
  ↔ (reads_back a this ∧ self_equal a = true) ∨ both_zeros a this = true.
Proof.
  destruct a; cbn [is_current reads_back self_equal both_zeros];
    try (rewrite string_strict_eq_spec,
           (proj2 (string_strict_eq_spec value value) eq_refl);
         intuition discriminate).
  - rewrite number_strict_eq_spec, andb_true_iff. done.
  - rewrite boolean_strict_eq_spec,
      (proj2 (boolean_strict_eq_spec value value) eq_refl).
    intuition discriminate.
Qed.

(** C1, amended. For each of the six field setters (label, mnemonic, icon,
    caption, className, closable) and every title: assigning a value that
    is [===] to the field's current value emits nothing on [changed] and
    leaves the title as it is; assigning a value that is not makes the
    getter return the new value, emits exactly one notification and
    leaves every other field alone.  On the strings and on the boolean
    [===] is equality of the values.  On the number [mnemonic] a value is
    [===] to the current one when it is the same number and not [NaN], or
    when both are zeros, of whatever signs. *)
Theorem setter_notifies_only_on_change (a : Assignment) this :
  (is_current a this = true
   ↔ (reads_back a this ∧ self_equal a = true) ∨ both_zeros a this = true)
  ∧ (field_of a ≠ Mnemonic → is_current a this = true ↔ reads_back a this)
  ∧ if is_current a this then
      set a this = this ∧ notifications (set a this) = notifications this
    else
      reads_back a (set a this)
      ∧ notified (set a this)
        = notified this ++ [(Signal.sender (changed this), tt)]
      ∧ notifications (set a this) = S (notifications this)
      ∧ ∀ f, f ≠ field_of a → same f this (set a this).
Proof.
  split; [apply is_current_value |].
  split; [apply is_current_reads_back |].
  destruct (is_current a this) eqn:Hcur.
  - by rewrite set_current.
  - destruct (set_other a this Hcur) as (Hget & Hn & _ & _ & Hsame).
    repeat split; [done | done | | done].
    unfold notifications. rewrite Hn, length_app. simpl. lia.
Qed.

End Setters.

(** C1, as the claim states it, fails on [mnemonic].  A mnemonic that holds
    [NaN] is assigned [NaN], the value it holds: the setter notifies.  A
    mnemonic that holds [+0] is assigned [-0], another number (their
    inverses are the two infinities): the setter neither stores it nor
    notifies. *)
Lemma setter_same_value_notifies :
  let this := Title.set_mnemonic nan tab in
  let zero := Title.set_mnemonic 0%float tab in
  Title.reads_back (Title.SetMnemonic nan) this
  ∧ Title.notifications (Title.set (Title.SetMnemonic nan) this)
    = S (Title.notifications this)
  ∧ (1 / Title.mnemonic zero)%float = infinity
  ∧ (1 / -0)%float = neg_infinity
  ∧ Title.set (Title.SetMnemonic (-0)%float) zero = zero
  ∧ (1 / Title.mnemonic (Title.set (Title.SetMnemonic (-0)%float) zero))%float
    = infinity.
Proof. by vm_compute. Qed.

(** * The dataset of a title *)

Section Dataset.
Import Title.
Context {T : Type}.
Implicit Types this : Title.t T.
Implicit Types ds : gmap string string.

Lemma or_empty_written (value : string) (old : option string) :
  or_empty (written value old) = value.
Proof.
  unfold written. destruct (value === or_empty old) eqn:Heq.
  - by apply string_strict_eq_spec in Heq.
  - destruct (truthy value) eqn:Htr.
    + by apply or_empty_truthy.
    + by apply truthy_false in Htr.
Qed.

Lemma written_wf (value : string) (old : option string) (s : string) :
  old ≠ Some "" → written value old = Some s → s ≠ "".
Proof.
  unfold written. intros Hold.
  destruct (value === or_empty old); [congruence |].
  destruct (truthy value) eqn:Htr; [| done].
  intros [= <-] ->. done.
Qed.

Lemma dataset_write_lookup (key value : string) this (k : string) :
  (value === or_empty (_dataset this !! key)) = false →
  _dataset (dataset_write key value this) !! k
  = if decide (key = k) then written value (_dataset this !! key)
    else _dataset this !! k.
Proof.
  intros Hne. unfold dataset_write, written. rewrite Hne.
  destruct (truthy value); simpl.
  - by rewrite lookup_insert.
  - by rewrite lookup_delete.
Qed.

Lemma setData_lookup (key value : string) this (k : string) :
  _dataset (setData key value this) !! k
  = if decide (key = k) then written value (_dataset this !! key)
    else _dataset this !! k.
Proof.
  unfold setData.
  destruct (value === or_empty (_dataset this !! key)) eqn:Heq.
  - unfold written. rewrite Heq. case_decide; by subst.
  - by rewrite <- (dataset_write_lookup _ _ _ _ Heq).
Qed.

Lemma getData_setData (key value : string) this :
  getData key (setData key value this) = value.
Proof.
  unfold getData. rewrite setData_lookup, decide_True by done.
  apply or_empty_written.
Qed.

(** Everything but the dataset: two titles with the same image here differ
    at most in their datasets. *)
Local Abbreviation but_dataset this := (assign_dataset ∅ this).

Lemma dataset_write_but_dataset (key value : string) this :
  but_dataset (dataset_write key value this) = but_dataset this.
Proof. unfold dataset_write. by destruct (truthy value). Qed.

Lemma updateData_body_spec this (c : bool) (key value : string) :
  let state := updateData_body (this, c) (key, value) in
  but_dataset state.1 = but_dataset this
  ∧ (∀ k, _dataset state.1 !! k
          = if decide (key = k) then written value (_dataset this !! key)
            else _dataset this !! k)
  ∧ state.2 = c || negb (value === or_empty (_dataset this !! key)).
Proof.
  unfold updateData_body. cbn [fst snd].
  destruct (value === or_empty (_dataset this !! key)) eqn:Heq; cbn [fst snd].
  - split_and!; [done | | by rewrite orb_false_r].
    intros k. unfold written. rewrite Heq. case_decide; by subst.
  - split_and!; [apply dataset_write_but_dataset | | by rewrite orb_true_r].
    intros k. by apply dataset_write_lookup.
Qed.

(** The loop of [updateData] over entries with distinct keys: only the
    dataset changes, each key of the entries is written once and the flag
    is raised when some entry differs from what the title held before the
    loop. *)
Lemma updateData_loop (entries : list (string * string)) :
  ∀ this (c : bool),
    NoDup entries.*1 →
    let state := foldl updateData_body (this, c) entries in
    but_dataset state.1 = but_dataset this
    ∧ (∀ k, _dataset state.1 !! k
            = match (list_to_map entries : gmap string string) !! k with
              | Some value => written value (_dataset this !! k)
              | None => _dataset this !! k
              end)
    ∧ (state.2 = true ↔ c = true ∨ ∃ entry, entry ∈ entries ∧ differs this entry).
Proof.
  induction entries as [| [key value] entries IH]; intros this c Hnodup.
  - cbn. split_and!; [done | done |]. split; [by left |].
    intros [? | (? & []%elem_of_nil & _)]; done.
  - rewrite fmap_cons in Hnodup. apply NoDup_cons in Hnodup as [Hkey Hnodup].
    cbn [foldl].
    destruct (updateData_body_spec this c key value) as (Hbut & Hlook & Hflag).
    destruct (updateData_body (this, c) (key, value)) as [this1 c1].
    cbn [fst snd] in Hbut, Hlook, Hflag.
    destruct (IH this1 c1 Hnodup) as (IHbut & IHlook & IHflag).
    split_and!.
    + congruence.
    + intros k. rewrite IHlook, Hlook. cbn [list_to_map foldr].
      destruct (decide (key = k)) as [<- | Hne].
      * rewrite lookup_insert_eq.
        by rewrite (not_elem_of_list_to_map_1 _ _ Hkey).
      * by rewrite lookup_insert_ne.
    + rewrite IHflag, Hflag. clear IHflag IHlook IH.
      assert (∀ entry, entry ∈ entries →
                differs this1 entry ↔ differs this entry) as Hsame.
      { intros [k v] Hin. unfold differs, getData. cbn [fst snd].
        rewrite Hlook, decide_False; [done |].
        intros <-. apply Hkey. apply list_elem_of_fmap. by exists (key, v). }
      assert (negb (value === or_empty (_dataset this !! key)) = true
              ↔ differs this (key, value)) as Hhead.
      { unfold differs, getData. cbn [fst snd].
        rewrite negb_true_iff, <- not_true_iff_false.
        by rewrite string_strict_eq_spec. }
      rewrite orb_true_iff, Hhead. split.
      * intros [[? | ?] | (entry & Hin & Hd)].
        -- by left.
        -- right. exists (key, value). split; [left | done].
        -- right. exists entry. split; [by right | by apply Hsame].
      * intros [? | (entry & Hin & Hd)]; [by left; left |].
        apply elem_of_cons in Hin as [-> | Hin]; [by left; right |].
        right. exists entry. split; [done | by apply Hsame].
Qed.

Lemma but_dataset_fields this this' :
  but_dataset this = but_dataset this' →
  owner this = owner this' ∧ _changed this = _changed this'
  ∧ ∀ f, f ≠ Dataset → same f this this'.
Proof.
  unfold assign_dataset. intros [= ? ? ? ? ? ? ? ?].
  split_and!; [done | done |]. by intros [] ?.
Qed.

(** ** The loop of the constructor *)

Lemma new_dataset_body_spec this (key value : string) :
  let this' := new_dataset_body this (key, value) in
  but_dataset this' = but_dataset this
  ∧ ∀ k, _dataset this' !! k
         = if decide (key = k) then
             if truthy value then Some value else _dataset this !! k
           else _dataset this !! k.
Proof.
  unfold new_dataset_body. cbn [fst snd].
  destruct (truthy value); (split; [done |]); intros k; cbn.
  - by rewrite lookup_insert.
  - by case_decide.
Qed.

Lemma new_dataset_loop (entries : list (string * string)) :
  ∀ this,
    NoDup entries.*1 →
    let this' := foldl new_dataset_body this entries in
    but_dataset this' = but_dataset this
    ∧ ∀ k, _dataset this' !! k
           = match (list_to_map entries : gmap string string) !! k with
             | Some value =>
                 if truthy value then Some value else _dataset this !! k
             | None => _dataset this !! k
             end.
Proof.
  induction entries as [| [key value] entries IH]; intros this Hnodup.
  - done.
  - rewrite fmap_cons in Hnodup. apply NoDup_cons in Hnodup as [Hkey Hnodup].
    cbn [foldl].
    destruct (new_dataset_body_spec this key value) as [Hbut Hlook].
    destruct (IH (new_dataset_body this (key, value)) Hnodup)
      as [IHbut IHlook].
    split; [congruence |].
    intros k. rewrite IHlook, Hlook. cbn [list_to_map foldr].
    destruct (decide (key = k)) as [<- | Hne].
    + by rewrite lookup_insert_eq, (not_elem_of_list_to_map_1 _ _ Hkey).
    + by rewrite lookup_insert_ne.
Qed.

(** What the constructor builds: every field holds the option given for
    it, or its default; the dataset holds the given entries but those
    with an empty value; nothing was emitted. *)
Lemma new_spec (self : ObjRef) (options : IOptions.t T) :
  let this := new self options in
  owner this = IOptions.owner options
  ∧ _changed this = Signal.new self
  ∧ label this = default "" (IOptions.label options)
  ∧ mnemonic this = default (-1)%float (IOptions.mnemonic options)
  ∧ icon this = default "" (IOptions.icon options)
  ∧ caption this = default "" (IOptions.caption options)
  ∧ className this = default "" (IOptions.className options)
  ∧ closable this = default false (IOptions.closable options)
  ∧ _dataset this
    = filter (λ entry, entry.2 ≠ "") (default ∅ (IOptions.dataset options)).
Proof.
  unfold new. cbv zeta.
  set (pre := if_defined (IOptions.closable options) _ _).
  assert (owner pre = IOptions.owner options
          ∧ _changed pre = Signal.new self
          ∧ label pre = default "" (IOptions.label options)
          ∧ mnemonic pre = default (-1)%float (IOptions.mnemonic options)
          ∧ icon pre = default "" (IOptions.icon options)
          ∧ caption pre = default "" (IOptions.caption options)
          ∧ className pre = default "" (IOptions.className options)
          ∧ closable pre = default false (IOptions.closable options)
          ∧ _dataset pre = ∅) as Hpre.
  { subst pre.
    destruct options as [o [l |] [m |] [i |] [c |] [n |] [b |] d];
      by split_and!. }
  clearbody pre. destruct Hpre as (Ho & Hs & Hl & Hm & Hi & Hc & Hn & Hb & Hd).
  destruct (IOptions.dataset options) as [dataset |]; cbn [if_defined default].
  - destruct (new_dataset_loop (map_to_list dataset) pre
                (NoDup_fst_map_to_list dataset)) as [Hbut Hlook].
    fold (for_in dataset new_dataset_body pre) in Hbut, Hlook.
    apply but_dataset_fields in Hbut as (Ho' & Hs' & Hsame).
    unfold label, mnemonic, icon, caption, className, closable in *.
    split_and!;
      [ congruence | congruence
      | rewrite <- Hl; by apply (Hsame Label)
      | rewrite <- Hm; by apply (Hsame Mnemonic)
      | rewrite <- Hi; by apply (Hsame Icon)
      | rewrite <- Hc; by apply (Hsame Caption)
      | rewrite <- Hn; by apply (Hsame ClassName)
      | rewrite <- Hb; by apply (Hsame Closable)
      | ].
    apply map_eq. intros k. rewrite Hlook, list_to_map_to_list, Hd, lookup_empty.
    destruct (dataset !! k) as [v |] eqn:Hk.
    + destruct (truthy v) eqn:Htr.
      * symmetry. apply map_lookup_filter_Some. split; [done |].
        cbn. intros ->. done.
      * symmetry. apply map_lookup_filter_None. right. intros v' Hv'.
        cbn in Hv'. assert (v' = v) as -> by congruence. cbn. intros Hne.
        by apply truthy_false in Htr.
    + symmetry. apply map_lookup_filter_None. by left.
  - rewrite map_filter_empty. by split_and!.
Qed.

(** ** [updateData] as a whole *)

Lemma some_entry_differs (values : gmap string string) this :
  (∃ entry, entry ∈ map_to_list values ∧ differs this entry)
  ↔ size (filter (differs this) values) ≠ 0.
Proof.
  rewrite map_size_non_empty_iff. split.
  - intros ([k v] & Hin%elem_of_map_to_list & Hd) Hempty.
    apply map_empty_filter_1 in Hempty. exact (Hempty k v Hin Hd).
  - intros (k & v & [Hk Hd]%map_lookup_filter_Some)%map_choose.
    exists (k, v). by rewrite elem_of_map_to_list.
Qed.

Lemma updateData_spec (values : gmap string string) this :
  let this' := updateData values this in
  let N := size (filter (differs this) values) in
  (∀ k, _dataset this' !! k
        = match values !! k with
          | Some value => written value (_dataset this !! k)
          | None => _dataset this !! k
          end)
  ∧ owner this' = owner this
  ∧ (∀ f, f ≠ Dataset → same f this this')
  ∧ Signal.sender (changed this') = Signal.sender (changed this)
  ∧ notified this'
    = notified this
      ++ (if decide (N = 0) then [] else [(Signal.sender (changed this), tt)]).
Proof.
  cbv zeta. unfold updateData, for_in.
  destruct (updateData_loop (map_to_list values) this false
              (NoDup_fst_map_to_list values)) as (Hbut & Hlook & Hflag).
  rewrite list_to_map_to_list in Hlook.
  rewrite some_entry_differs in Hflag.
  destruct (foldl updateData_body (this, false) (map_to_list values))
    as [this1 flag].
  cbn [fst snd] in *. symmetry in Hbut.
  apply but_dataset_fields in Hbut as (Howner & Hsignal & Hsame).
  unfold notified, changed.
  destruct flag.
  - assert (size (filter (differs this) values) ≠ 0) as Hsome.
    { destruct Hflag as [Hflag _]. by destruct Hflag. }
    rewrite decide_False by done.
    cbn. rewrite <- Hsignal. by split_and!.
  - assert (size (filter (differs this) values) = 0) as Hnone.
    { destruct (decide (size (filter (differs this) values) = 0)) as [| Hsome];
        [done |].
      destruct Hflag as [_ Hflag]. by discriminate Hflag; right. }
    rewrite decide_True by done.
    rewrite <- Hsignal, app_nil_r. by split_and!.
Qed.

(** A title is its dataset and the rest. *)
Lemma title_ext this this' :
  but_dataset this = but_dataset this' → _dataset this = _dataset this' →
  this = this'.
Proof.
  destruct this, this'. unfold assign_dataset. cbn.
  by intros [= -> -> -> -> -> -> -> ->] ->.
Qed.

(** The order in which [for ... in] visits the keys of [values] does not
    matter: the loop of [updateData] over the entries of [values] in any
    order ends in the same title, with the same flag. *)
Lemma updateData_any_order (entries : list (string * string))
    (values : gmap string string) this :
  NoDup entries.*1 → list_to_map entries = values →
  foldl updateData_body (this, false) entries
  = for_in values updateData_body (this, false).
Proof.
  intros Hnodup Hentries. unfold for_in.
  destruct (updateData_loop entries this false Hnodup)
    as (Hbut & Hlook & Hflag).
  destruct (updateData_loop (map_to_list values) this false
              (NoDup_fst_map_to_list values)) as (Hbut' & Hlook' & Hflag').
  rewrite list_to_map_to_list in Hlook'. rewrite Hentries in Hlook.
  destruct (foldl updateData_body (this, false) entries) as [this1 flag].
  destruct (foldl updateData_body (this, false) (map_to_list values))
    as [this2 flag'].
  cbn [fst snd] in *. f_equal.
  - apply title_ext; [congruence |].
    apply map_eq. intros k. by rewrite Hlook, Hlook'.
  - assert (flag = true ↔ flag' = true) as Hiff.
    { rewrite Hflag, Hflag'.
      assert (∀ entry, entry ∈ entries ↔ entry ∈ map_to_list values) as Hin.
      { intros [k v]. rewrite elem_of_map_to_list, <- Hentries.
        by apply elem_of_list_to_map. }
      by setoid_rewrite Hin. }
    destruct flag, flag'; try done.
    + by destruct Hiff as [-> _].
    + by destruct Hiff as [_ ->].
Qed.

(** The same for the loop of the constructor over [options.dataset]. *)
Lemma new_dataset_any_order (entries : list (string * string))
    (dataset : gmap string string) this :
  NoDup entries.*1 → list_to_map entries = dataset →
  foldl new_dataset_body this entries = for_in dataset new_dataset_body this.
Proof.
  intros Hnodup Hentries. unfold for_in.
  destruct (new_dataset_loop entries this Hnodup) as (Hbut & Hlook).
  destruct (new_dataset_loop (map_to_list dataset) this
              (NoDup_fst_map_to_list dataset)) as (Hbut' & Hlook').
  rewrite list_to_map_to_list in Hlook'. rewrite Hentries in Hlook.
  apply title_ext; [congruence |].
  apply map_eq. intros k. by rewrite Hlook, Hlook'.
Qed.

(** ** The datasets of the titles a program can build *)

Lemma same_refl (f : Field) this : same f this this.
Proof. by destruct f. Qed.

Lemma set_dataset (a : Assignment) this : _dataset (set a this) = _dataset this.
Proof.
  destruct (is_current a this) eqn:Hcur.
  - by rewrite set_current.
  - by destruct (set_other a this Hcur) as (_ & _ & _ & ? & _).
Qed.

Lemma written_lookup_wf this (key value s : string) :
  dataset_wf this → written value (_dataset this !! key) = Some s → s ≠ "".
Proof.
  intros Hwf. apply written_wf. intros Hempty. by apply (Hwf key "").
Qed.

Lemma dataset_wf_new (self : ObjRef) (options : IOptions.t T) :
  dataset_wf (new self options).
Proof.
  destruct (new_spec self options) as (_ & _ & _ & _ & _ & _ & _ & _ & Hds).
  unfold dataset_wf. rewrite Hds. intros key value.
  by intros [_ ?]%map_lookup_filter_Some.
Qed.

Lemma dataset_wf_apply (op : Op) this :
  dataset_wf this → dataset_wf (apply op this).
Proof.
  intros Hwf. destruct op as [a | key value | values]; cbn [apply].
  - unfold dataset_wf. by rewrite set_dataset.
  - intros k s. rewrite setData_lookup. case_decide; [| apply Hwf].
    intros Hw. by apply (written_lookup_wf this key value).
  - destruct (updateData_spec values this) as (Hlook & _).
    intros k s. rewrite Hlook.
    destruct (values !! k) as [value |]; [| apply Hwf].
    intros Hw. by apply (written_lookup_wf this k value).
Qed.

Lemma dataset_wf_run (ops : list Op) :
  ∀ this, dataset_wf this → dataset_wf (run ops this).
Proof.
  induction ops as [| op ops IH]; intros this Hwf; [done |].
  apply IH. by apply dataset_wf_apply.
Qed.

Lemma setData_empty_removes (key : string) this :
  dataset_wf this → _dataset (setData key "" this) !! key = None.
Proof.
  intros Hwf. rewrite setData_lookup, decide_True by done.
  destruct (written "" (_dataset this !! key)) as [s |] eqn:Hw; [| done].
  pose proof (written_lookup_wf _ _ _ _ Hwf Hw) as Hs.
  pose proof (or_empty_written "" (_dataset this !! key)) as Hread.
  rewrite Hw in Hread. cbn in Hread.
  destruct (truthy s) eqn:Htr; [done | by apply truthy_false in Htr].
Qed.

End Dataset.

(** * The contract of the observable record *)

Section Contract.
Import Title.
Context {T : Type}.
Implicit Types this : Title.t T.

(** C2. For every title and every mapping given to [updateData], with [N]
    keys whose value differs from what the title reads at the key (an
    absent key reads as the empty string) and [M] keys whose value is what
    the title reads already: afterwards every key of the mapping reads as
    the value given for it, the keys outside the mapping are untouched,
    and [changed] was emitted exactly once when [N > 0] and not at all when
    [N = 0]. *)
Theorem updateData_notifies_once (values : gmap string string) this :
  let N := size (filter (differs this) values) in
  let M := size (filter (λ entry, ¬ differs this entry) values) in
  let this' := updateData values this in
  N + M = size values
  ∧ (∀ key value, values !! key = Some value → getData key this' = value)
  ∧ (∀ key, values !! key = None → _dataset this' !! key = _dataset this !! key)
  ∧ notified this'
    = notified this
      ++ (if decide (N = 0) then [] else [(Signal.sender (changed this), tt)])
  ∧ notifications this'
    = notifications this + (if decide (0 < N) then 1 else 0).
Proof.
  cbv zeta.
  destruct (updateData_spec values this) as (Hlook & _ & _ & _ & Hnotified).
  split_and!.
  - rewrite <- map_size_disj_union
      by apply map_disjoint_filter_complement.
    by rewrite map_filter_union_complement.
  - intros key value Hkey. unfold getData. rewrite Hlook, Hkey.
    apply or_empty_written.
  - intros key Hkey. by rewrite Hlook, Hkey.
  - done.
  - unfold notifications. rewrite Hnotified, length_app.
    destruct (size (filter (differs this) values)) as [| n].
    + by rewrite decide_True, decide_False by lia.
    + by rewrite decide_False, decide_True by lia.
Qed.

(** C5. For every title a program can build and every key: [getData] of a
    key the dataset does not have is the empty string, and it is a string
    for every key; after [setData(key, value)], [getData(key)] is [value],
    whatever the string; [setData] with the empty string leaves the
    dataset without the key, and the key then reads as the empty
    string. *)
Theorem getData_setData_read_back (self : ObjRef) (options : IOptions.t T)
    (ops : list Op) (key value : string) :
  let this := run ops (new self options) in
  (_dataset this !! key = None → getData key this = "")
  ∧ getData key (setData key value this) = value
  ∧ _dataset (setData key "" this) !! key = None
  ∧ getData key (setData key "" this) = "".
Proof.
  cbv zeta. split_and!.
  - unfold getData. by intros ->.
  - apply getData_setData.
  - apply setData_empty_removes, dataset_wf_run, dataset_wf_new.
  - apply getData_setData.
Qed.

(** C9. For every key, every string and every title, [updateData] with the
    mapping of that one key to that string does what [setData] does: the
    two resulting titles are the same, dataset and emissions of [changed]
    included. *)
Theorem updateData_singleton_setData (key value : string) this :
  updateData {[key := value]} this = setData key value this
  ∧ _dataset (updateData {[key := value]} this)
    = _dataset (setData key value this)
  ∧ notifications (updateData {[key := value]} this)
    = notifications (setData key value this).
Proof.
  assert (updateData {[key := value]} this = setData key value this) as ->;
    [| done].
  unfold updateData, for_in, setData. rewrite map_to_list_singleton.
  cbn [foldl]. unfold updateData_body. cbn [fst snd].
  by destruct (value === or_empty (_dataset this !! key)).
Qed.

(** C10. Whatever options it is given, the constructor emits nothing on
    [changed]; an entry of the initial dataset whose value is the empty
    string is not stored, and every key reads from the new title as it
    reads from the initial dataset with [|| ''], so that such an entry
    reads as the empty string, like an absent key. *)
Theorem new_emits_nothing (self : ObjRef) (options : IOptions.t T) :
  let this := new self options in
  let initial := default ∅ (IOptions.dataset options) in
  notified this = []
  ∧ notifications this = 0
  ∧ (∀ key, initial !! key = Some "" → _dataset this !! key = None)
  ∧ (∀ key, initial !! key = Some "" → getData key this = "")
  ∧ (∀ key, initial !! key = None → getData key this = "")
  ∧ (∀ key, getData key this = or_empty (initial !! key)).
Proof.
  cbv zeta.
  destruct (new_spec self options) as (_ & Hs & _ & _ & _ & _ & _ & _ & Hds).
  assert (∀ key, getData key (new self options)
                 = or_empty (default ∅ (IOptions.dataset options) !! key))
    as Hread.
  { intros key. unfold getData. rewrite Hds.
    destruct (default ∅ (IOptions.dataset options) !! key) as [v |] eqn:Hk.
    - destruct (decide (v = "")) as [-> | Hv].
      + rewrite (proj2 (map_lookup_filter_None _ _ _)); [done |].
        right. intros v' Hv'. cbn. rewrite Hk in Hv'. simplify_eq.
        intros Hne. by apply Hne.
      + by rewrite (map_lookup_filter_Some_2 _ _ _ _ Hk).
    - rewrite (proj2 (map_lookup_filter_None _ _ _)); [done | by left]. }
  unfold notifications, notified, changed. rewrite Hs.
  split_and!; [done | done | | | | done].
  - intros key Hk. rewrite Hds. apply map_lookup_filter_None. right.
    intros v' Hv'. cbn. rewrite Hk in Hv'. simplify_eq.
    intros Hne. by apply Hne.
  - intros key Hk. by rewrite Hread, Hk.
  - intros key Hk. by rewrite Hread, Hk.
Qed.

(** The signal of a title stays the signal it was made with, for the same
    sender; operations only add emissions to it. *)
Lemma apply_signal (op : Op) this :
  Signal.sender (changed (apply op this)) = Signal.sender (changed this)
  ∧ notified this `prefix_of` notified (apply op this).
Proof.
  destruct op as [a | key value | values]; cbn [apply].
  - destruct (is_current a this) eqn:Hcur; [by rewrite set_current |].
    destruct (set_other a this Hcur) as (_ & Hn & _).
    split; [| rewrite Hn; by apply prefix_app_r].
    destruct a; cbn [is_current set] in *;
      unfold label, mnemonic, icon, caption, className, closable in Hcur;
      unfold set_label, set_mnemonic, set_icon, set_caption, set_className,
        set_closable;
      by rewrite Hcur.
  - unfold setData, dataset_write.
    destruct (value === _); [done |].
    destruct (truthy value); (split; [done | by apply prefix_app_r]).
  - destruct (updateData_spec values this) as (_ & _ & _ & Hsender & Hn).
    split; [done | rewrite Hn; by apply prefix_app_r].
Qed.

(** What one operation leaves alone. *)
Lemma apply_frame (op : Op) this :
  owner (apply op this) = owner this
  ∧ (∀ f, f ≠ addressed op → same f this (apply op this))
  ∧ (∀ key, addresses_key op key = false →
            _dataset (apply op this) !! key = _dataset this !! key).
Proof.
  destruct op as [a | key value | values]; cbn [apply addressed addresses_key].
  - split_and!.
    + destruct (is_current a this) eqn:Hcur; [by rewrite set_current |].
      by destruct (set_other a this Hcur) as (_ & _ & ? & _).
    + destruct (is_current a this) eqn:Hcur.
      * rewrite set_current by done. intros. apply same_refl.
      * by destruct (set_other a this Hcur) as (_ & _ & _ & _ & ?).
    + intros. by rewrite set_dataset.
  - split_and!.
    + unfold setData, dataset_write.
      by destruct (value === _), (truthy value).
    + unfold setData, dataset_write.
      destruct (value === _); [intros; apply same_refl |].
      by destruct (truthy value); intros [] ?.
    + intros k Hk%bool_decide_eq_false.
      by rewrite setData_lookup, decide_False.
  - destruct (updateData_spec values this) as (Hlook & Howner & Hsame & _).
    split_and!; [done | done |].
    intros k Hk%bool_decide_eq_false. rewrite Hlook.
    destruct (values !! k); [| done]. by destruct Hk.
Qed.

Lemma run_owner (ops : list Op) : ∀ this, owner (run ops this) = owner this.
Proof.
  induction ops as [| op ops IH]; intros this; [done |].
  cbn. unfold run in IH. rewrite IH.
  by destruct (apply_frame op this) as [? _].
Qed.

(** C8. Every operation on a title changes at most the field it addresses
    and leaves every other field as it was; [setData] and [updateData]
    address the dataset and change there at most the entries of the keys
    they are given.  The signal keeps its sender.  The owner is the one
    given to the constructor: no operation, and no sequence of operations,
    changes it. *)
Theorem operations_change_only_their_field (op : Op) this
    (self : ObjRef) (options : IOptions.t T) (ops : list Op) :
  (∀ f, f ≠ addressed op → same f this (apply op this))
  ∧ (∀ key, addresses_key op key = false →
            _dataset (apply op this) !! key = _dataset this !! key)
  ∧ Signal.sender (changed (apply op this)) = Signal.sender (changed this)
  ∧ owner (apply op this) = owner this
  ∧ owner (new self options) = IOptions.owner options
  ∧ owner (run ops (new self options)) = IOptions.owner options.
Proof.
  destruct (apply_frame op this) as (Howner & Hsame & Hkeys).
  destruct (apply_signal op this) as (Hsender & _).
  destruct (new_spec self options) as (Hnew & _).
  split_and!; [done | done | done | done | done |].
  by rewrite run_owner.
Qed.

End Contract.

(** * The cell addressing rule *)

Section Addressing.
Import CellAddressing.

(** C3. The cell addressing rule is a total function of the pair of
    integers [(row, col)] and puts every pair in exactly one of the four
    categories: body when both are non-negative, column header when only
    the row is negative, row header when only the column is negative, and
    corner when both are negative, whatever their magnitude and not only
    at [(-1, -1)]. *)
Theorem cell_category_partition (row col : Z) :
  (∀ c, in_category c row col ↔ cell_category row col = c)
  ∧ (exists! c, in_category c row col)
  ∧ (cell_category row col = Body ↔ (row >= 0 ∧ col >= 0)%Z)
  ∧ (cell_category row col = ColumnHeader ↔ (row < 0 ∧ col >= 0)%Z)
  ∧ (cell_category row col = RowHeader ↔ (row >= 0 ∧ col < 0)%Z)
  ∧ (cell_category row col = Corner ↔ (row < 0 ∧ col < 0)%Z).
Proof.
  assert (∀ c, in_category c row col ↔ cell_category row col = c) as Hspec.
  { intros c. unfold cell_category.
    destruct (Z.ltb_spec row 0), (Z.ltb_spec col 0), c; cbn;
      split; (done || lia). }
  split_and!; [done | | by rewrite <- Hspec ..].
  exists (cell_category row col). split; [by apply Hspec |].
  intros c Hc. by apply Hspec.
Qed.

End Addressing.

(** * The change events *)

Section ChangeEvents.
Import IDataModel ArgsObject.
Context {any : Type}.
Implicit Types o : gmap string (Value any).

Lemma type_at_Some o (s : string) :
  type_at o = Some s ↔ o !! "type" = Some (Str s).
Proof.
  unfold type_at. destruct (o !! "type") as [[] |]; naive_solver.
Qed.

Lemma number_at_Some o (key : string) (n : number) :
  number_at key o = Some n ↔ o !! key = Some (Num n).
Proof.
  unfold number_at. destruct (o !! key) as [[] |]; naive_solver.
Qed.

(** The literals of the five interfaces are those the switch on the tag
    tells apart. *)
Lemma tags_variant_of_type (s : string) (v : Variant) :
  s ∈ tags v ↔ variant_of_type s = Some v.
Proof.
  unfold variant_of_type.
  destruct v; cbn [tags]; rewrite ?elem_of_cons, elem_of_nil;
    repeat case_decide; intuition (simplify_eq; done).
Qed.

Lemma conforms_to_spec (v : Variant) o :
  conforms_to v o = true
  ↔ (∃ s, type_at o = Some s ∧ variant_of_type s = Some v)
    ∧ Forall (λ key, ∃ n, o !! key = Some (Num n)) (declared v).
Proof.
  unfold conforms_to.
  rewrite andb_true_iff, <- (Is_true_true (forallb _ _)), forallb_True.
  assert (Forall (Is_true ∘ (λ key, bool_decide (is_Some (number_at key o))))
            (declared v)
          ↔ Forall (λ key, ∃ n, o !! key = Some (Num n)) (declared v)) as ->.
  { apply Forall_iff. intros key. cbn. rewrite bool_decide_spec.
    unfold is_Some. by setoid_rewrite number_at_Some. }
  setoid_rewrite <- tags_variant_of_type.
  destruct (type_at o) as [s |].
  - rewrite bool_decide_eq_true. split.
    + intros [Hs Hall]. split; [by exists s | done].
    + intros [(s' & [= <-] & Hs) Hall]. done.
  - split; [by intros [[=] _] | by intros [(s' & [=] & _) _]].
Qed.

(** The object of an args value is of the union, with exactly the
    properties of its interface, and reads back as the args value. *)
Lemma to_object_of_object (args : ChangedArgs) :
  is_ChangedArgs (to_object (any := any) args) = true
  ∧ exact (variant args) (to_object (any := any) args) = true
  ∧ of_object (to_object (any := any) args) = Some args.
Proof.
  destruct args as [[[] ? ?] | [[] ? ?] | [[] ? ? ?] | [[] ? ? ? ?] | [[]]];
    by vm_compute.
Qed.

(** C6, as the claim states it, fails: the interfaces of the union are
    open.  An object with the tag and the properties of a rows-inserted
    event and, besides, those of a move is of the union, as an inserted
    event; its properties are those of none of the five variants. *)
Lemma extra_properties_are_representable :
  is_ChangedArgs inserted_and_moved = true
  ∧ conforms_to sections_inserted inserted_and_moved = true
  ∧ number_at "fromIndex" inserted_and_moved = Some 0%float
  ∧ number_at "toIndex" inserted_and_moved = Some 5%float
  ∧ forallb (λ v, negb (exact v inserted_and_moved))
      [sections_inserted; sections_removed; sections_moved;
       cells_changed_variant; model_changed_variant] = true
  ∧ of_object inserted_and_moved
    = Some (SectionsInserted
              (mkSectionsInserted rows_inserted 2%float 3%float)).
Proof. by vm_compute. Qed.

(** C6, amended. Every object of the union has a [type] tag, one of the
    eight literals, and is of exactly one of the five interfaces, the one
    its tag tells; it has the properties that interface declares, as
    numbers: index and span (inserted, removed), fromIndex, toIndex and
    span (moved), rowIndex, colIndex, rowSpan and colSpan (cells changed),
    none (model changed).  Reading it through the type gives the args
    value of these properties; the object may hold other properties
    besides. *)
Theorem changed_args_variant_of_tag o :
  is_ChangedArgs o = true →
  ∃ tag args,
    type_at o = Some tag
    ∧ variant_of_type tag = Some (variant args)
    ∧ (∀ v, conforms_to v o = true ↔ v = variant args)
    ∧ Forall (λ key, is_Some (number_at key o)) (declared (variant args))
    ∧ of_object o = Some args
    ∧ type args = tag
    ∧ to_object args ⊆ o.
Proof.
  intros Hunion. unfold is_ChangedArgs in Hunion.
  apply existsb_exists in Hunion as (v & _ & Hconf).
  pose proof Hconf as Hspec.
  apply conforms_to_spec in Hspec as [(s & Htype & Hv) Hall].
  assert (∀ v', conforms_to v' o = true ↔ v' = v) as Honly.
  { intros v'. split; [| by intros ->].
    intros [(s' & Hs' & Hv') _]%conforms_to_spec. congruence. }
  assert (Forall (λ key, is_Some (number_at key o)) (declared v)) as Hdecl.
  { eapply Forall_impl; [exact Hall |]. intros key [n Hn].
    exists n. by apply number_at_Some. }
  exists s. unfold variant_of_type in Hv.
  repeat case_decide; simplify_eq; cbn [declared] in Hall;
    repeat match goal with
      | H : Forall _ (_ :: _) |- _ => apply Forall_cons in H as [[? ?] H]
      | H : _ ∨ _ |- _ => destruct H
      end;
    subst;
    eexists;
    (split_and!;
     [ exact Htype
     | shelve
     | shelve
     | shelve
     | unfold of_object; rewrite Htype; cbn [mbind option_bind];
       repeat (rewrite decide_False by done); rewrite decide_True by done;
       repeat match goal with
         | H : o !! ?key = Some (Num ?n) |- _ =>
             rewrite (proj2 (number_at_Some o key n) H); clear H
         end;
       reflexivity
     | shelve
     | shelve ]).
  Unshelve.
  all: try reflexivity; try exact Honly; try exact Hdecl.
  all: apply map_subseteq_spec; intros property held; unfold to_object;
    cbn [type
         inserted_type inserted_index inserted_span removed_type
         removed_index removed_span moved_type fromIndex toIndex moved_span
         cells_type rowIndex colIndex rowSpan colSpan model_type];
    rewrite ?lookup_insert_Some, ?lookup_empty;
    apply type_at_Some in Htype;
    intuition (simplify_eq; done).
Qed.

End ChangeEvents.

(** The rows-inserted object with the properties of a move besides. *)
Lemma changed_args_variant_of_tag_witness :
  ∃ tag args,
    ArgsObject.type_at ArgsObject.inserted_and_moved = Some tag
    ∧ IDataModel.variant_of_type tag = Some (IDataModel.variant args)
    ∧ (∀ v, ArgsObject.conforms_to v ArgsObject.inserted_and_moved = true
            ↔ v = IDataModel.variant args)
    ∧ Forall (λ key,
                is_Some (ArgsObject.number_at key ArgsObject.inserted_and_moved))
        (ArgsObject.declared (IDataModel.variant args))
    ∧ ArgsObject.of_object ArgsObject.inserted_and_moved = Some args
    ∧ IDataModel.type args = tag
    ∧ ArgsObject.to_object args ⊆ ArgsObject.inserted_and_moved.
Proof.
  apply (changed_args_variant_of_tag ArgsObject.inserted_and_moved).
  by vm_compute.
Defined.

(** * The base class of data models *)

Section BaseClass.
Import IDataModel DataModel.
Context {S : Type}.
Implicit Types this : DataModel.t S.

Lemma emitChanged_signal (args : ChangedArgs) this :
  changed (emitChanged args this) = Signal.emit args (changed this).
Proof. reflexivity. Qed.

(** Over its life a model keeps one signal: the one of its construction,
    after it emitted the args of every call of [emitChanged], in order. *)
Lemma run_signal (actions : list Action) :
  ∀ this,
    changed (run actions this)
    = foldl (λ signal args, Signal.emit args signal) (changed this)
        (emit_calls actions).
Proof.
  induction actions as [| a actions IH]; intros this; [done |].
  cbn [run foldl]. unfold run in IH. rewrite IH.
  by destruct a.
Qed.

Lemma emit_all_spec {T U : Type} (calls : list U) :
  ∀ signal : Signal.t T U,
    let signal' := foldl (λ signal args, Signal.emit args signal) signal calls in
    Signal.sender signal' = Signal.sender signal
    ∧ Signal.emitted signal'
      = Signal.emitted signal
        ++ ((λ args, (Signal.sender signal, args)) <$> calls).
Proof.
  induction calls as [| args calls IH]; intros signal; cbn.
  - by rewrite app_nil_r.
  - destruct (IH (Signal.emit args signal)) as [-> ->].
    cbn. by rewrite <- app_assoc.
Qed.

Lemma run_new_spec (self : ObjRef) (fields : S) (actions : list Action) :
  let this := run actions (new self fields) in
  Signal.sender (changed this) = self
  ∧ Signal.emitted (changed this) = (λ args, (self, args)) <$> emit_calls actions
  ∧ delivered this = emit_calls actions.
Proof.
  cbv zeta. unfold delivered. rewrite run_signal.
  destruct (emit_all_spec (emit_calls actions) (changed (new self fields)))
    as [-> ->].
  cbn. split_and!; [done | done |].
  rewrite <- list_fmap_compose. apply list_fmap_id.
Qed.

(** C7. For every model, at any time of its life, and every args value,
    [emitChanged(args)] makes exactly one emission on the signal that the
    [changed] getter returns: the emissions of that signal are those made
    before, followed by one whose sender is the model and whose args are
    the value passed.  The getter returns one signal during the whole life
    of the model: the one made at construction, after the emissions of the
    calls made so far. *)
Theorem emitChanged_emits_once (self : ObjRef) (fields : S)
    (actions : list Action) (args : ChangedArgs) :
  let this := run actions (new self fields) in
  let this' := emitChanged args this in
  Signal.emitted (changed this')
  = Signal.emitted (changed this) ++ [(self, args)]
  ∧ length (Signal.emitted (changed this'))
    = Datatypes.S (length (Signal.emitted (changed this)))
  ∧ Signal.sender (changed this') = self
  ∧ DataModel.fields this' = DataModel.fields this
  ∧ changed this' = Signal.emit args (changed this)
  ∧ changed this
    = foldl (λ signal args, Signal.emit args signal) (Signal.new self)
        (emit_calls actions).
Proof.
  cbv zeta.
  destruct (run_new_spec self fields actions) as (Hsender & Hemitted & _).
  rewrite emitChanged_signal. cbn [Signal.emit Signal.emitted Signal.sender].
  rewrite Hsender. split_and!; try done.
  - rewrite length_app. cbn. lia.
  - by rewrite run_signal.
Qed.



End BaseClass.


(** * The sources at work on concrete values *)

Section Examples.
Import Title.

Example tab_fields :
  owner tab = "widget" ∧ label tab = "Files" ∧ mnemonic tab = (-1)%float
  ∧ closable tab = false ∧ notified tab = []
  ∧ getData "path" tab = "/tmp" ∧ getData "mode" tab = ""
  ∧ _dataset tab !! "mode" = None.
Proof. vm_compute. by repeat split. Qed.

Example tab_same_label : set_label "Files" tab = tab.
Proof. reflexivity. Qed.

Example tab_other_label :
  label (set_label "Logs" tab) = "Logs"
  ∧ notified (set_label "Logs" tab) = [(7%positive, tt)].
Proof. by vm_compute. Qed.

(** Two changed keys, one unchanged key, one notification. *)
Example tab_updateData :
  let tab' :=
    updateData (<["path" := ""]> (<["mode" := "rw"]> (<["user" := ""]> ∅)))
      tab in
  getData "path" tab' = "" ∧ getData "mode" tab' = "rw"
  ∧ getData "user" tab' = "" ∧ notified tab' = [(7%positive, tt)]
  ∧ _dataset tab' !! "path" = None.
Proof. vm_compute. by repeat split. Qed.

Example tab_updateData_unchanged :
  updateData (<["path" := "/tmp"]> (<["mode" := ""]> ∅)) tab = tab.
Proof. by vm_compute. Qed.

(** [NaN] is not [===] to itself: assigning it to a mnemonic that holds it
    is an assignment of a different value, and notifies. *)
Example set_mnemonic_nan :
  let this := set_mnemonic nan tab in
  mnemonic this = nan ∧ notifications this = 1
  ∧ mnemonic (set_mnemonic nan this) = nan
  ∧ notifications (set_mnemonic nan this) = 2.
Proof. by vm_compute. Qed.

(** The two zeros are [===]: assigning one over the other is no
    assignment. *)
Example set_mnemonic_zeros :
  let this := set_mnemonic 0%float tab in
  set_mnemonic (-0)%float this = this.
Proof. reflexivity. Qed.

End Examples.

(** * Further properties of [setData] *)

Section SetData.
Import Title.
Context {T : Type}.
Implicit Types this : Title.t T.

Lemma setData_same (key value : string) this :
  value = getData key this → setData key value this = this.
Proof.
  intros ->. unfold setData, getData.
  by rewrite (proj2 (string_strict_eq_spec _ _)).
Qed.

Lemma setData_other (key value : string) this :
  value ≠ getData key this →
  setData key value this = emit_changed (dataset_write key value this).
Proof.
  intros Hne. unfold setData.
  destruct (value === or_empty (_dataset this !! key)) eqn:Heq; [| done].
  by apply string_strict_eq_spec in Heq.
Qed.

(** In a dataset without empty strings a write leaves the value at the key
    when it is not empty and nothing otherwise, whatever was there. *)
Lemma written_canonical (value : string) (old : option string) :
  old ≠ Some "" →
  written value old = if truthy value then Some value else None.
Proof.
  intros Hold. unfold written.
  destruct (value === or_empty old) eqn:Heq; [| done].
  apply string_strict_eq_spec in Heq. subst value.
  destruct old as [s |]; [| done]. cbn.
  destruct (truthy s) eqn:Hs; cbn; [by rewrite Hs |].
  by apply truthy_false in Hs as ->.
Qed.

Lemma setData_dataset (key value : string) this :
  dataset_wf this →
  _dataset (setData key value this)
  = if truthy value then <[key := value]> (_dataset this)
    else delete key (_dataset this).
Proof.
  intros Hwf. apply map_eq. intros k. rewrite setData_lookup.
  rewrite written_canonical by (intros Hk; by apply (Hwf key "")).
  destruct (truthy value).
  - by rewrite lookup_insert.
  - by rewrite lookup_delete.
Qed.

Lemma getData_empty_iff this (key : string) :
  dataset_wf this → getData key this = "" ↔ _dataset this !! key = None.
Proof.
  intros Hwf. unfold getData. split; [| by intros ->].
  destruct (_dataset this !! key) as [s |] eqn:Hk; [| done].
  cbn. intros Hs. destruct (Hwf key s Hk).
  destruct (truthy s) eqn:Htr; [done | by apply truthy_false in Htr].
Qed.

Local Abbreviation but_dataset this := (assign_dataset ∅ this).

Lemma setData_but_dataset (key value : string) this :
  but_dataset (setData key value this)
  = if decide (value = getData key this) then but_dataset this
    else emit_changed (but_dataset this).
Proof.
  case_decide as Hv.
  - by rewrite setData_same.
  - rewrite setData_other by done. unfold dataset_write.
    by destruct (truthy value).
Qed.

Lemma getData_setData_ne (key key' value : string) this :
  key ≠ key' → getData key' (setData key value this) = getData key' this.
Proof.
  intros Hne. unfold getData. by rewrite setData_lookup, decide_False.
Qed.

(** X1. [setData] is gated like the field setters: with the value the title
    reads at the key already it changes nothing and emits nothing, with
    any other value it emits [changed] exactly once. *)
Theorem setData_notifies_only_on_change (key value : string) this :
  (value = getData key this → setData key value this = this)
  ∧ notified (setData key value this)
    = notified this
      ++ (if decide (value = getData key this) then []
          else [(Signal.sender (changed this), tt)])
  ∧ notifications (setData key value this)
    = notifications this + (if decide (value = getData key this) then 0 else 1).
Proof.
  split; [apply setData_same |].
  unfold notifications. case_decide as Hv.
  - rewrite setData_same by done. by rewrite app_nil_r, Nat.add_0_r.
  - rewrite setData_other by done. unfold dataset_write.
    destruct (truthy value); (split; [done |]);
      rewrite emit_changed_notified, length_app; cbn; done.
Qed.

(** X2. [setData] is idempotent: the second of two equal calls in a row
    changes nothing and emits nothing. *)
Theorem setData_idempotent (key value : string) this :
  setData key value (setData key value this) = setData key value this.
Proof. apply setData_same. by rewrite getData_setData. Qed.

(** X3. Calls of [setData] for two different keys commute: either order
    ends in the same title, with the same emissions. *)
Theorem setData_commute (key1 value1 key2 value2 : string) this :
  key1 ≠ key2 →
  setData key1 value1 (setData key2 value2 this)
  = setData key2 value2 (setData key1 value1 this).
Proof.
  intros Hne. apply title_ext.
  - rewrite !setData_but_dataset.
    rewrite !getData_setData_ne by done.
    by repeat case_decide.
  - apply map_eq. intros k. rewrite !setData_lookup.
    repeat case_decide; by simplify_eq.
Qed.

(** X4. The dataset of a title a program can build never holds an empty
    string: a key reads as the empty string exactly when the dataset does
    not have it, and a key the dataset has reads as the value stored. *)
Theorem reachable_dataset_reads (self : ObjRef) (options : IOptions.t T)
    (ops : list Op) (key : string) :
  let this := run ops (new self options) in
  (getData key this = "" ↔ _dataset this !! key = None)
  ∧ (∀ value, _dataset this !! key = Some value ↔
              value ≠ "" ∧ getData key this = value).
Proof.
  cbv zeta.
  pose proof (dataset_wf_run ops _ (dataset_wf_new self options)) as Hwf.
  split; [by apply getData_empty_iff |].
  intros value. unfold getData. split.
  - intros Hk. rewrite Hk. pose proof (Hwf key value Hk) as Hv.
    split; [done |]. cbn. destruct (truthy value) eqn:Htr; [done |].
    by apply truthy_false in Htr.
  - intros [Hv Hread].
    destruct (_dataset (run ops (new self options)) !! key) as [s |] eqn:Hk;
      [| done].
    cbn in Hread. destruct (truthy s); by subst.
Qed.

(** X5. On a title a program can build, [setData] with a non-empty value
    stores it at the key and with the empty value deletes the key,
    whatever was there; so of two calls for one key the last one decides
    the dataset, and writing back what the key read before restores the
    dataset. *)
Theorem setData_last_write_wins (self : ObjRef) (options : IOptions.t T)
    (ops : list Op) (key value value' : string) :
  let this := run ops (new self options) in
  _dataset (setData key value this)
  = (if truthy value then <[key := value]> (_dataset this)
     else delete key (_dataset this))
  ∧ _dataset (setData key value' (setData key value this))
    = _dataset (setData key value' this)
  ∧ _dataset (setData key (getData key this) (setData key value this))
    = _dataset this.
Proof.
  cbv zeta. set (this := run ops (new self options)).
  assert (dataset_wf this) as Hwf
    by apply dataset_wf_run, dataset_wf_new.
  assert (dataset_wf (setData key value this)) as Hwf'
    by apply (dataset_wf_apply (SetData key value)), Hwf.
  assert (∀ v, _dataset (setData key v (setData key value this))
               = _dataset (setData key v this)) as Hlast.
  { intros v. rewrite !setData_dataset by done.
    destruct (truthy v), (truthy value);
      by rewrite ?insert_insert_eq, ?insert_delete_eq, ?delete_insert_eq,
           ?delete_delete_eq. }
  split_and!; [by apply setData_dataset | apply Hlast |].
  rewrite Hlast. by rewrite setData_same.
Qed.

End SetData.

(** Two keys of the example title, written in either order. *)
Lemma setData_commute_witness :
  Title.setData "path" "/var" (Title.setData "mode" "rw" tab)
  = Title.setData "mode" "rw" (Title.setData "path" "/var" tab).
Proof. by apply setData_commute. Defined.

(** * Further properties of [updateData] *)

Section UpdateData.
Import Title.
Context {T : Type}.
Implicit Types this : Title.t T.

Local Abbreviation but_dataset this := (assign_dataset ∅ this).

Lemma filter_ext_elem {A : Type} (P Q : A → Prop)
    `{∀ x, Decision (P x)} `{∀ x, Decision (Q x)} (l : list A) :
  (∀ x, x ∈ l → P x ↔ Q x) → filter P l = filter Q l.
Proof.
  induction l as [| x l IH]; intros HPQ; [done |].
  rewrite !filter_cons, IH by (intros; apply HPQ; by right).
  destruct (decide (P x)) as [HP | HP], (decide (Q x)) as [HQ | HQ];
    try done; destruct (HPQ x); try (by left); tauto.
Qed.

Lemma size_filter_entries (P : string * string → Prop)
    `{∀ x, Decision (P x)} (values : gmap string string) :
  size (filter P values) = length (filter P (map_to_list values)).
Proof.
  rewrite map_filter_alt, <- length_map_to_list.
  apply Permutation_length, map_to_list_to_map.
  eapply sublist_NoDup; [apply (NoDup_fst_map_to_list values) |].
  apply fmap_sublist. by apply sublist_filter.
Qed.

Lemma updateData_loop_unchanged (entries : list (string * string)) :
  ∀ this (c : bool),
    Forall (λ entry, ¬ differs this entry) entries →
    foldl updateData_body (this, c) entries = (this, c).
Proof.
  induction entries as [| [key value] entries IH]; intros this c Hall;
    [done |].
  apply Forall_cons in Hall as [Hhead Hall]. cbn [foldl].
  assert (updateData_body (this, c) (key, value) = (this, c)) as ->;
    [| by apply IH].
  unfold updateData_body. cbn [fst snd].
  unfold differs, getData in Hhead. cbn [fst snd] in Hhead.
  apply dec_stable in Hhead.
  by rewrite (proj2 (string_strict_eq_spec _ _) Hhead).
Qed.

Lemma updateData_unchanged (values : gmap string string) this :
  (∀ key value, values !! key = Some value → value = getData key this) →
  updateData values this = this.
Proof.
  intros Hall. unfold updateData, for_in.
  rewrite updateData_loop_unchanged; [done |].
  apply Forall_forall. intros [key value] Hin%elem_of_map_to_list.
  unfold differs. cbn. intros Hd. by apply Hd, Hall.
Qed.

Lemma getData_updateData (values : gmap string string) this
    (key value : string) :
  values !! key = Some value → getData key (updateData values this) = value.
Proof.
  intros Hkey. destruct (updateData_spec values this) as (Hlook & _).
  unfold getData. rewrite Hlook, Hkey. apply or_empty_written.
Qed.

Lemma updateData_but_dataset (values : gmap string string) this :
  but_dataset (updateData values this)
  = if decide (size (filter (differs this) values) = 0) then but_dataset this
    else emit_changed (but_dataset this).
Proof.
  unfold updateData, for_in.
  destruct (updateData_loop (map_to_list values) this false
              (NoDup_fst_map_to_list values)) as (Hbut & _ & Hflag).
  rewrite some_entry_differs in Hflag.
  destruct (foldl updateData_body (this, false) (map_to_list values))
    as [this1 flag].
  cbn [fst snd] in *. destruct flag.
  - rewrite decide_False by (destruct Hflag as [Hflag _]; by destruct Hflag).
    change (emit_changed (but_dataset this1) = emit_changed (but_dataset this)).
    by rewrite Hbut.
  - rewrite decide_True; [done |].
    destruct (decide (size (filter (differs this) values) = 0)) as [| Hsome];
      [done |].
    destruct Hflag as [_ Hflag]. by discriminate Hflag; right.
Qed.

(** X6. [updateData] leaves the title exactly as it is, emissions
    included, when and only when no value of the mapping differs from
    what the title reads at its key; so it does with the empty mapping. *)
Theorem updateData_unchanged_iff (values : gmap string string) this :
  (updateData values this = this
   ↔ size (filter (differs this) values) = 0)
  ∧ (updateData values this = this
     ↔ ∀ key value, values !! key = Some value → value = getData key this)
  ∧ updateData ∅ this = this.
Proof.
  assert (size (filter (differs this) values) = 0
          ↔ ∀ key value, values !! key = Some value → value = getData key this)
    as Hnone.
  { rewrite map_size_empty_iff, map_empty_filter. unfold map_Forall, differs.
    cbn. split; intros Hall key value Hkey.
    - by apply dec_stable, Hall.
    - intros Hd. by apply Hd, Hall. }
  assert (updateData values this = this
          ↔ size (filter (differs this) values) = 0) as Hiff.
  { split; [| intros HN; by apply updateData_unchanged, Hnone].
    intros Heq.
    destruct (updateData_spec values this) as (_ & _ & _ & _ & Hnotified).
    rewrite Heq in Hnotified. case_decide; [done |].
    apply (f_equal length) in Hnotified.
    rewrite length_app in Hnotified. cbn in Hnotified. lia. }
  split_and!; [done | by rewrite Hiff |].
  by apply updateData_unchanged.
Qed.

(** X7. [updateData] is idempotent: called again with the same mapping it
    changes nothing and emits nothing. *)
Theorem updateData_idempotent (values : gmap string string) this :
  updateData values (updateData values this) = updateData values this.
Proof.
  apply updateData_unchanged. intros key value Hkey.
  by rewrite (getData_updateData _ _ _ _ Hkey).
Qed.

(** ** The batch and the single calls *)

Lemma emit_changed_times_swap (n : nat) this :
  emit_changed_times n (emit_changed this)
  = emit_changed (emit_changed_times n this).
Proof. unfold emit_changed_times. by rewrite Nat.iter_swap. Qed.

Lemma emit_changed_times_fields (n : nat) this :
  but_dataset (emit_changed_times n this)
  = emit_changed_times n (but_dataset this)
  ∧ _dataset (emit_changed_times n this) = _dataset this
  ∧ notifications (emit_changed_times n this) = notifications this + n.
Proof.
  induction n as [| n (IHbut & IHds & IHn)]; [by rewrite Nat.add_0_r |].
  unfold emit_changed_times in *. rewrite !Nat.iter_succ. split_and!.
  - change (emit_changed (but_dataset (Nat.iter n emit_changed this))
            = emit_changed (Nat.iter n emit_changed (but_dataset this))).
    by rewrite IHbut.
  - done.
  - unfold notifications in *. rewrite emit_changed_notified, length_app, IHn.
    cbn. lia.
Qed.

Lemma setData_each_loop (entries : list (string * string)) :
  ∀ this,
    NoDup entries.*1 →
    but_dataset (setData_each entries this)
    = emit_changed_times (length (filter (differs this) entries))
        (but_dataset this)
    ∧ ∀ k, _dataset (setData_each entries this) !! k
           = match (list_to_map entries : gmap string string) !! k with
             | Some value => written value (_dataset this !! k)
             | None => _dataset this !! k
             end.
Proof.
  induction entries as [| [key value] entries IH]; intros this Hnodup.
  - done.
  - rewrite fmap_cons in Hnodup. apply NoDup_cons in Hnodup as [Hkey Hnodup].
    change (setData_each ((key, value) :: entries) this)
      with (setData_each entries (setData key value this)).
    destruct (IH (setData key value this) Hnodup) as [IHbut IHlook].
    assert (∀ entry, entry ∈ entries → entry.1 ≠ key) as Hother.
    { intros [k v] Hin <-. apply Hkey, list_elem_of_fmap. by exists (k, v). }
    split.
    + rewrite IHbut, setData_but_dataset.
      rewrite (filter_ext_elem _ (differs this)).
      2:{ intros entry Hin. unfold differs.
          by rewrite getData_setData_ne by (symmetry; by apply Hother). }
      rewrite filter_cons. unfold differs at 2. cbn [fst snd].
      destruct (decide (value = getData key this)) as [Hv | Hv].
      * by rewrite decide_False by (intros Hd; by apply Hd).
      * rewrite decide_True by done. cbn [length].
        by rewrite emit_changed_times_swap.
    + intros k. rewrite IHlook, setData_lookup. cbn [list_to_map foldr].
      destruct (decide (key = k)) as [<- | Hne].
      * by rewrite lookup_insert_eq, (not_elem_of_list_to_map_1 _ _ Hkey).
      * by rewrite lookup_insert_ne.
Qed.

(** X8. [updateData] is the batch form of [setData]: calling [setData] for
    each entry of the mapping ends in the same title as [updateData], but
    for the emissions, which are one for each of the [N] entries that
    differ instead of one for all of them. *)
Theorem updateData_coalesces_setData (values : gmap string string) this :
  let N := size (filter (differs this) values) in
  let each := setData_each (map_to_list values) this in
  each = emit_changed_times (N - 1) (updateData values this)
  ∧ _dataset each = _dataset (updateData values this)
  ∧ notifications each = notifications this + N
  ∧ notifications (updateData values this) = notifications this + min 1 N.
Proof.
  cbv zeta.
  destruct (setData_each_loop (map_to_list values) this
              (NoDup_fst_map_to_list values)) as [Hbut Hlook].
  rewrite list_to_map_to_list, <- size_filter_entries in *.
  destruct (updateData_spec values this) as (Hlook' & _).
  pose proof (updateData_but_dataset values this) as Hbut'.
  set (N := size (filter (differs this) values)) in *.
  set (batch := updateData values this) in *.
  set (each := setData_each (map_to_list values) this) in *.
  destruct (emit_changed_times_fields (N - 1) batch) as (Hbut1 & Hds1 & Hn1).
  destruct (emit_changed_times_fields N (but_dataset this)) as (_ & _ & HnN).
  assert (_dataset each = _dataset batch) as Hds.
  { apply map_eq. intros k. by rewrite Hlook, Hlook'. }
  assert (notifications batch = notifications this + min 1 N) as Hbatch.
  { change (notifications (but_dataset batch) = notifications this + min 1 N).
    rewrite Hbut'. case_decide as HN.
    - rewrite HN. unfold notifications, notified, changed. cbn. lia.
    - unfold notifications. rewrite emit_changed_notified, length_app.
      unfold notified, changed. cbn. destruct N; [done | lia]. }
  split_and!; [| done | | done].
  - apply title_ext; [| by rewrite Hds1].
    rewrite Hbut, Hbut1, Hbut'. case_decide as HN.
    + by rewrite HN.
    + destruct N as [| n]; [done |]. cbn [Nat.sub].
      rewrite Nat.sub_0_r, emit_changed_times_swap. done.
  - change (notifications (but_dataset each) = notifications this + N).
    by rewrite Hbut, HnN.
Qed.

End UpdateData.

(** * Further properties of the setters and of runs of operations *)

Section Operations.
Import Title.
Context {T : Type}.
Implicit Types this : Title.t T.

Lemma set_assign (a : Assignment) this :
  is_current a this = false → set a this = emit_changed (assign a this).
Proof.
  destruct a; cbn [is_current set assign];
    unfold label, mnemonic, icon, caption, className, closable;
    unfold set_label, set_mnemonic, set_icon, set_caption, set_className,
      set_closable;
    by intros ->.
Qed.

Lemma is_current_assigned (a : Assignment) this :
  is_current a (emit_changed (assign a this)) = self_equal a.
Proof. by destruct a. Qed.

Lemma self_equal_strings (a : Assignment) :
  field_of a ≠ Mnemonic → self_equal a = true.
Proof.
  destruct a; cbn; intros Hf;
    first [ by apply string_strict_eq_spec
          | by apply boolean_strict_eq_spec
          | done ].
Qed.

(** X10. Assigning to a field, through its setter, the value just assigned
    to it changes nothing and emits nothing, when the first assignment
    changed nothing or the value is [===] to itself; otherwise (the
    number that is not equal to itself, assigned to [mnemonic]) the
    second assignment emits again.  The setters of the strings and of the
    boolean are idempotent. *)
Theorem setter_idempotent_iff (a : Assignment) this :
  (set a (set a this) = set a this
   ↔ is_current a this || self_equal a = true)
  ∧ (field_of a ≠ Mnemonic → set a (set a this) = set a this).
Proof.
  assert (set a (set a this) = set a this
          ↔ is_current a this || self_equal a = true) as Hiff.
  { destruct (is_current a this) eqn:Hcur; cbn [orb].
    - rewrite (set_current a this Hcur), (set_current a this Hcur).
      by split.
    - rewrite (set_assign a this Hcur).
      pose proof (is_current_assigned a this) as Hagain.
      destruct (self_equal a).
      + rewrite set_current by done. by split.
      + rewrite set_assign by done. split; [| done].
        intros Heq%(f_equal notifications).
        unfold notifications, notified, changed in Heq.
        destruct a; cbn in Heq; rewrite !length_app in Heq; cbn in Heq; lia. }
  split; [done |].
  intros Hf. apply Hiff. rewrite self_equal_strings by done.
  apply orb_true_r.
Qed.

(** ** Emissions over a run *)

Lemma apply_notified (op : Op) this :
  ∃ n, n ≤ 1
       ∧ notified (apply op this)
         = notified this ++ replicate n (Signal.sender (changed this), tt).
Proof.
  destruct op as [a | key value | values]; cbn [apply].
  - destruct (is_current a this) eqn:Hcur.
    + exists 0. rewrite set_current by done. cbn. rewrite app_nil_r.
      split; [lia | done].
    + exists 1. rewrite set_assign by done. split; [lia |].
      unfold notified, changed. by destruct a.
  - destruct (decide (value = getData key this)) as [Hv | Hv].
    + exists 0. rewrite setData_same by done. cbn. rewrite app_nil_r.
      split; [lia | done].
    + exists 1. rewrite setData_other by done. unfold dataset_write.
      split; [lia |]. by destruct (truthy value).
  - destruct (updateData_spec values this) as (_ & _ & _ & _ & ->).
    case_decide; [exists 0 | exists 1]; (split; [lia | done]).
Qed.

Lemma run_notified (ops : list Op) :
  ∀ this,
    ∃ n, n ≤ length ops
         ∧ Signal.sender (changed (run ops this)) = Signal.sender (changed this)
         ∧ notified (run ops this)
           = notified this ++ replicate n (Signal.sender (changed this), tt).
Proof.
  induction ops as [| op ops IH]; intros this.
  - exists 0. cbn. rewrite app_nil_r. split_and!; [lia | done | done].
  - destruct (apply_notified op this) as (n1 & Hn1 & Hop).
    destruct (apply_signal op this) as [Hsender _].
    destruct (IH (apply op this)) as (n2 & Hn2 & Hsender' & Hrun).
    exists (n1 + n2). cbn [run foldl length] in *. unfold run in *.
    split_and!; [lia | congruence |].
    by rewrite Hrun, Hop, Hsender, replicate_add, app_assoc.
Qed.

(** X9. Over the life of a title [changed] is emitted at most once for
    each operation made on it, always with the title itself as sender,
    and nothing else is ever emitted on it. *)
Theorem run_notifies_at_most_once_each (self : ObjRef)
    (options : IOptions.t T) (ops : list Op) :
  let this := run ops (new self options) in
  notifications this ≤ length ops
  ∧ notified this = replicate (notifications this) (self, tt)
  ∧ Signal.sender (changed this) = self.
Proof.
  cbv zeta.
  destruct (run_notified ops (new self options)) as (n & Hn & Hsender & Hrun).
  destruct (new_spec self options) as (_ & Hsignal & _).
  unfold notifications. unfold notified, changed in *.
  rewrite Hsignal in Hsender, Hrun. cbn in Hsender, Hrun.
  rewrite Hrun, length_replicate. done.
Qed.

(** ** Operations on different fields *)

Lemma is_current_frame (a : Assignment) (op : Op) this :
  addressed op ≠ field_of a →
  is_current a (apply op this) = is_current a this.
Proof.
  intros Hf. destruct (apply_frame op this) as (_ & Hsame & _).
  specialize (Hsame (field_of a) (not_eq_sym Hf)).
  destruct a; cbn in Hsame |- *;
    unfold label, mnemonic, icon, caption, className, closable;
    by rewrite Hsame.
Qed.

(** What the loop of [updateData] does to a title commutes with every
    change of the title that leaves the dataset alone. *)
Lemma updateData_loop_commutes (g : Title.t T → Title.t T) :
  (∀ this, _dataset (g this) = _dataset this) →
  (∀ key value this,
     dataset_write key value (g this) = g (dataset_write key value this)) →
  ∀ (entries : list (string * string)) this (c : bool),
    foldl updateData_body (g this, c) entries
    = (g (foldl updateData_body (this, c) entries).1,
       (foldl updateData_body (this, c) entries).2).
Proof.
  intros Hds Hwrite. induction entries as [| [key value] entries IH];
    intros this c; [done |].
  cbn [foldl].
  assert (updateData_body (g this, c) (key, value)
          = (g (updateData_body (this, c) (key, value)).1,
             (updateData_body (this, c) (key, value)).2)) as ->.
  { unfold updateData_body. cbn [fst snd]. rewrite Hds.
    destruct (value === or_empty (_dataset this !! key)); [done |].
    cbn [fst snd]. by rewrite Hwrite. }
  destruct (updateData_body (this, c) (key, value)) as [this1 c1].
  apply IH.
Qed.

Lemma apply_commutes_assign (a : Assignment) (op : Op) this :
  addressed op ≠ field_of a →
  apply op (emit_changed (assign a this))
  = emit_changed (assign a (apply op this)).
Proof.
  intros Hf. destruct op as [b | key value | values]; cbn [apply].
  - destruct a, b; cbn [addressed field_of] in Hf; try done;
      cbn [set assign];
      unfold set_label, set_mnemonic, set_icon, set_caption, set_className,
        set_closable;
      cbn [_label _mnemonic _icon _caption _className _closable
           emit_changed assign_label assign_mnemonic assign_icon
           assign_caption assign_className assign_closable];
      match goal with |- context [if ?c then _ else _] => destruct c end;
      reflexivity.
  - unfold setData.
    assert (_dataset (emit_changed (assign a this)) = _dataset this) as ->
      by (by destruct a).
    destruct (value === or_empty (_dataset this !! key)); [done |].
    unfold dataset_write. by destruct a, (truthy value).
  - unfold updateData, for_in.
    rewrite (updateData_loop_commutes (λ this, emit_changed (assign a this)));
      [| by destruct a
       | intros k v x; unfold dataset_write; by destruct a, (truthy v) ].
    destruct (foldl updateData_body (this, false) (map_to_list values))
      as [this1 flag].
    cbn [fst snd]. by destruct flag, a.
Qed.

Lemma set_commutes_apply (a : Assignment) (op : Op) this :
  addressed op ≠ field_of a →
  set a (apply op this) = apply op (set a this).
Proof.
  intros Hf. destruct (is_current a this) eqn:Hcur.
  - rewrite (set_current a this Hcur).
    apply set_current. by rewrite is_current_frame.
  - rewrite (set_assign a this Hcur), apply_commutes_assign by done.
    apply set_assign. by rewrite is_current_frame.
Qed.

(** X11. Two operations that address different fields commute: in either
    order they end in the same title, with the same emissions.  So do a
    field setter and [setData] or [updateData], and the setters of two
    different fields. *)
Theorem operations_on_different_fields_commute (op1 op2 : Op) this :
  addressed op1 ≠ addressed op2 →
  apply op1 (apply op2 this) = apply op2 (apply op1 this).
Proof.
  intros Hf.
  destruct op1 as [a | key1 value1 | values1].
  - apply (set_commutes_apply a op2). by apply not_eq_sym.
  - destruct op2 as [b | |]; [| done | done].
    symmetry. by apply (set_commutes_apply b (SetData key1 value1)).
  - destruct op2 as [b | |]; [| done | done].
    symmetry. by apply (set_commutes_apply b (UpdateData values1)).
Qed.

End Operations.

(** A new label and a batch update of the example title, in either
    order. *)
Lemma operations_on_different_fields_commute_witness :
  let relabel := Title.Assign (Title.SetLabel "Logs") in
  let update :=
    Title.UpdateData (<["path" := ""]> (<["mode" := "rw"]> ∅)) in
  Title.apply relabel (Title.apply update tab)
  = Title.apply update (Title.apply relabel tab).
Proof. by apply operations_on_different_fields_commute. Defined.

(** * Further properties of the constructor and of the data model *)

Section Construction.
Import Title.
Context {T : Type}.

(** X12. A new title reads as its options say: the owner is the one
    given, and each getter returns the value given for its field or,
    without one, the default of the field: the empty string for [label],
    [icon], [caption] and [className], [-1] for [mnemonic] and [false]
    for [closable]. *)
Theorem new_reads_options (self : ObjRef) (options : IOptions.t T) :
  let this := new self options in
  owner this = IOptions.owner options
  ∧ label this = default "" (IOptions.label options)
  ∧ mnemonic this = default (-1)%float (IOptions.mnemonic options)
  ∧ icon this = default "" (IOptions.icon options)
  ∧ caption this = default "" (IOptions.caption options)
  ∧ className this = default "" (IOptions.className options)
  ∧ closable this = default false (IOptions.closable options)
  ∧ Signal.sender (changed this) = self.
Proof.
  cbv zeta.
  destruct (new_spec self options)
    as (Ho & Hs & Hl & Hm & Hi & Hc & Hn & Hb & _).
  unfold changed. rewrite Hs. by split_and!.
Qed.

End Construction.

Section ModelRuns.
Import IDataModel DataModel.
Context {S : Type}.
Implicit Types this : DataModel.t S.

(** X13. The [type] tag of an args object tells its interface and, for
    the three kinds of section events, rows from columns: two args
    objects have the same tag exactly when they agree on both. *)
Theorem type_tag_discriminates (args args' : ChangedArgs) :
  type args = type args'
  ↔ variant args = variant args' ∧ sections args = sections args'.
Proof.
  destruct args as [[[] ? ?] | [[] ? ?] | [[] ? ? ?] | [[] ? ? ? ?] | [[]]],
    args' as [[[] ? ?] | [[] ? ? ] | [[] ? ? ?] | [[] ? ? ? ?] | [[]]];
    cbn; (split; [intros Htag | intros [Hv Hs]]); done.
Qed.

Lemma run_app (actions1 actions2 : list Action) this :
  run (actions1 ++ actions2) this = run actions2 (run actions1 this).
Proof. unfold run. apply foldl_app. Qed.

Lemma run_delivered (actions : list Action) this :
  delivered (run actions this) = delivered this ++ emit_calls actions.
Proof.
  unfold delivered. rewrite run_signal.
  destruct (emit_all_spec (emit_calls actions) (changed this)) as [_ ->].
  rewrite fmap_app, <- list_fmap_compose. f_equal. apply list_fmap_id.
Qed.

(** X14. What a model delivered stays delivered: running more actions only
    appends the args of the new calls of [emitChanged], in order, and
    the state of the subclass moves as if no event had been emitted. *)
Theorem run_delivers_in_order (actions1 actions2 : list Action) this :
  delivered (run (actions1 ++ actions2) this)
  = delivered (run actions1 this) ++ emit_calls actions2
  ∧ delivered (run actions1 this) = delivered this ++ emit_calls actions1
  ∧ fields (run actions1 this)
    = foldl (λ state a,
               match a with
               | Mutate f => f state
               | EmitChanged _ => state
               end) (fields this) actions1.
Proof.
  split_and!.
  - by rewrite run_app, run_delivered.
  - apply run_delivered.
  - revert this. induction actions1 as [| a actions1 IH]; intros this;
      [done |].
    cbn [run foldl]. unfold run in IH. rewrite IH. by destruct a.
Qed.

End ModelRuns.

(** * Batches in a row, and the initial dataset as a batch *)

Section Batches.
Import Title.
Context {T : Type}.
Implicit Types this : Title.t T.

Local Abbreviation but_dataset this := (assign_dataset ∅ this).

Lemma updateData_dataset (values : gmap string string) this (k : string) :
  dataset_wf this →
  _dataset (updateData values this) !! k
  = match values !! k with
    | Some value => if truthy value then Some value else None
    | None => _dataset this !! k
    end.
Proof.
  intros Hwf. destruct (updateData_spec values this) as (Hlook & _).
  rewrite Hlook. destruct (values !! k) as [value |]; [| done].
  apply written_canonical. intros Hk. by apply (Hwf k "").
Qed.

(** X15. On a title a program can build, [updateData] stores the non-empty
    values of the mapping, deletes the keys given with the empty string
    and keeps the other entries; two batches in a row leave the dataset
    that the one batch of the merged mapping leaves, where the later
    batch wins on a key given twice. *)
Theorem updateData_twice_merges (self : ObjRef) (options : IOptions.t T)
    (ops : list Op) (values1 values2 : gmap string string) :
  let this := run ops (new self options) in
  (∀ key, _dataset (updateData values1 this) !! key
          = match values1 !! key with
            | Some value => if truthy value then Some value else None
            | None => _dataset this !! key
            end)
  ∧ _dataset (updateData values2 (updateData values1 this))
    = _dataset (updateData (values2 ∪ values1) this).
Proof.
  cbv zeta. set (this := run ops (new self options)).
  assert (dataset_wf this) as Hwf by apply dataset_wf_run, dataset_wf_new.
  assert (dataset_wf (updateData values1 this)) as Hwf1
    by apply (dataset_wf_apply (UpdateData values1)), Hwf.
  split; [intros key; by apply updateData_dataset |].
  apply map_eq. intros k. rewrite !updateData_dataset by done.
  destruct (values2 !! k) as [v2 |] eqn:H2.
  - by rewrite (lookup_union_Some_l _ _ _ _ H2).
  - by rewrite (lookup_union_r _ _ _ H2).
Qed.

Lemma but_dataset_intro this this' :
  owner this = owner this' → _changed this = _changed this' →
  (∀ f, f ≠ Dataset → same f this this') →
  but_dataset this = but_dataset this'.
Proof.
  intros Ho Hs Hsame.
  pose proof (Hsame Label) as Hl. pose proof (Hsame Mnemonic) as Hm.
  pose proof (Hsame Icon) as Hi. pose proof (Hsame Caption) as Hc.
  pose proof (Hsame ClassName) as Hn. pose proof (Hsame Closable) as Hb.
  destruct this, this'. cbn in *. unfold assign_dataset. cbn.
  by rewrite Ho, Hs, Hl, Hm, Hi, Hc, Hn, Hb.
Qed.

(** X16. The constructor treats the initial dataset as a batch update that
    notifies nobody: the new title is the title built from the same
    options without the dataset, with the dataset that [updateData] of
    the initial dataset gives it, and without the emission that
    [updateData] makes when some initial value is not empty. *)
Theorem new_dataset_as_silent_update (self : ObjRef)
    (options : IOptions.t T) :
  let initial := default ∅ (IOptions.dataset options) in
  let bare := new self (without_dataset options) in
  new self options = assign_dataset (_dataset (updateData initial bare)) bare
  ∧ notifications (new self options) = 0
  ∧ notifications (updateData initial bare)
    = min 1 (size (filter (λ entry, entry.2 ≠ "") initial)).
Proof.
  cbv zeta.
  destruct (new_spec self options)
    as (Ho & Hs & Hl & Hm & Hi & Hc & Hn & Hb & Hds).
  destruct (new_spec self (without_dataset options))
    as (Ho' & Hs' & Hl' & Hm' & Hi' & Hc' & Hn' & Hb' & Hds').
  change (default ∅ (IOptions.dataset (without_dataset options)))
    with (∅ : gmap string string) in Hds'.
  cbn [without_dataset IOptions.owner IOptions.label IOptions.mnemonic
       IOptions.icon IOptions.caption IOptions.className IOptions.closable]
    in Ho', Hl', Hm', Hi', Hc', Hn', Hb'.
  set (bare := new self (without_dataset options)) in *.
  set (initial := default ∅ (IOptions.dataset options)) in *.
  rewrite map_filter_empty in Hds'.
  assert (_dataset (new self options) = _dataset (updateData initial bare))
    as Hsame.
  { apply map_eq. intros k.
    rewrite updateData_dataset, Hds, Hds', lookup_empty
      by (unfold dataset_wf; rewrite Hds'; apply map_Forall_empty).
    destruct (initial !! k) as [v |] eqn:Hk.
    - destruct (truthy v) eqn:Htr.
      + apply map_lookup_filter_Some. split; [done |]. cbn. by intros ->.
      + apply map_lookup_filter_None. right. intros v' Hv'. cbn.
        apply truthy_false in Htr. intros Hne. apply Hne. congruence.
    - apply map_lookup_filter_None. by left. }
  assert (filter (differs bare) initial
          = filter (λ entry, entry.2 ≠ "") initial) as Hdiffers.
  { apply map_filter_ext. intros k v _. unfold differs, getData.
    cbn [fst snd]. by rewrite Hds', lookup_empty. }
  split_and!.
  - apply title_ext; [| done].
    change (but_dataset (new self options) = but_dataset bare).
    apply but_dataset_intro; [congruence | congruence |].
    unfold label, mnemonic, icon, caption, className, closable in *.
    intros [] Hf; cbn [same]; [congruence .. | done].
  - unfold notifications, notified, changed. by rewrite Hs.
  - destruct (updateData_spec initial bare) as (_ & _ & _ & _ & Hnotified).
    unfold notifications. rewrite Hnotified, <- Hdiffers, length_app.
    unfold notified, changed. rewrite Hs'. cbn [Signal.new Signal.emitted].
    destruct (size (filter (differs bare) initial)) as [| n]; [done |].
    rewrite decide_False by done. cbn. lia.
Qed.

End Batches.
